(** * compare-factory-config: reconciliation of factory entries against Topology

    A shallow embedding of [bin/compare-factory-config.py] and the
    properties of its reconciliation core, its factory loaders and its
    temporary-directory handling. *)

From stdpp Require Import gmap strings list fin_maps pretty sorting.

Set Warnings "-register-all,-level-tolerance,-clear-no-such-hyp".

(** ** Python values that occur as names *)

(** Hashable scalars, up to Python equality.  Names read from XML are
    [str] or [None] ([Element.get] and [Element.text] return [None] when the
    attribute or the text is absent); [yaml.safe_load] also yields integers.
    A bool compares and hashes like the integer it equals and is represented
    by it; the other scalars of YAML (floats, dates, binary data) are outside
    this model. *)
Inductive scalar :=
| SNone
| SInt (z : Z)
| SStr (s : string).

#[global] Instance scalar_eq_dec : EqDecision scalar.
Proof. solve_decision. Defined.

Definition scalar_to_sum (x : scalar) : unit + (Z + string) :=
  match x with
  | SNone => inl tt
  | SInt z => inr (inl z)
  | SStr s => inr (inr s)
  end.

Definition scalar_of_sum (x : unit + (Z + string)) : scalar :=
  match x with
  | inl _ => SNone
  | inr (inl z) => SInt z
  | inr (inr s) => SStr s
  end.

#[global] Instance scalar_countable : Countable scalar.
Proof.
  apply (inj_countable' scalar_to_sum scalar_of_sum).
  by intros [].
Defined.

(** [x.get(k)] of an optional string, as a name. *)
Definition of_opt (o : option string) : scalar :=
  match o with
  | Some s => SStr s
  | None => SNone
  end.

(** ** Exceptions *)

Inductive exn :=
| KeyError
| TypeError
| AttributeError
| UnboundLocalError
| XMLParseError
| URLError
| GitCommandError
| PermissionError
| FileNotFoundError.

Inductive result (A : Type) :=
| Ok (a : A)
| Raise (e : exn).
Arguments Ok {A} a.
Arguments Raise {A} e.

#[global] Instance result_bind : MBind result := λ A B k m,
  match m with
  | Ok a => k a
  | Raise e => Raise e
  end.

#[global] Instance result_fmap : FMap result := λ A B f m,
  match m with
  | Ok a => Ok (f a)
  | Raise e => Raise e
  end.

Definition is_ok {A} (m : result A) : bool :=
  match m with
  | Ok _ => true
  | Raise _ => false
  end.

(** [for x in xs: acc = body(acc, x)], stopping at the first exception. *)
Fixpoint for_each {A S} (xs : list A) (acc : S) (body : S → A → result S)
  : result S :=
  match xs with
  | [] => Ok acc
  | x :: rest => acc' ← body acc x ; for_each rest acc' body
  end.

(** ** Code that acts on a state *)

(** A computation over a state [S] that returns or raises; the state it
    leaves is kept in both cases. *)
Definition st (S A : Type) : Type := S → result A * S.

Definition st_bind {S A B} (m : st S A) (k : A → st S B) : st S B := λ s,
  match m s with
  | (Ok a, s') => k a s'
  | (Raise e, s') => (Raise e, s')
  end.

Definition lift {S A} (r : result A) : st S A := λ s, (r, s).
Definition act {S} (f : S → S) : st S unit := λ s, (Ok (), f s).

Notation "x ⇐ m ;> k" := (st_bind m (λ x, k))
  (at level 20, m at level 100, k at level 200, only parsing).
Notation "m ;>> k" := (st_bind m (λ _, k))
  (at level 100, k at level 200, right associativity, only parsing).

(** [for x in xs: body(x)] *)
Fixpoint for_st {S A} (xs : list A) (body : A → st S unit) : st S unit :=
  match xs with
  | [] => lift (Ok ())
  | x :: rest => (body x ;>> for_st rest body)
  end.

(** ** Iteration order of a Python set *)

(** A [for] loop over a set visits every element once, in an order the
    language leaves open.  The development is parametric in that order. *)
Record set_order := {
  iter : gset scalar → list scalar;
  iter_perm : ∀ X, iter X ≡ₚ elements X
}.

Definition canonical_order : set_order :=
  {| iter := elements; iter_perm := λ X, reflexivity (elements X) |}.

Definition reversed_order : set_order :=
  {| iter := λ X, reverse (elements X);
     iter_perm := λ X, reverse_Permutation (elements X) |}.

(** ** The two indexes *)

(** [topology_DB]: the dictionary of the four name sets. *)
Record topology := {
  resources : gset scalar;
  sites : gset scalar;
  facilities : gset scalar;
  resourceGroups : gset scalar
}.

(** [gfactory_DB]: GLIDEIN_ResourceName to the entry names that carry it. *)
Abbreviation factory := (gmap scalar (list scalar)).

(** [d[k]] *)
Definition subscript (d : factory) (k : scalar) : result (list scalar) :=
  match d !! k with
  | Some v => Ok v
  | None => Raise KeyError
  end.

(** ** The reconciler *)

Definition nonmatch_resource_names (gfactory_DB : factory) (topology_DB : topology)
  : gset scalar :=
  dom gfactory_DB ∖ resources topology_DB.

Definition match_non_resource_names (gfactory_DB : factory) (topology_DB : topology)
  : gset scalar :=
  nonmatch_resource_names gfactory_DB topology_DB
    ∩ (resourceGroups topology_DB ∪ sites topology_DB ∪ facilities topology_DB).

Definition find_non_resource_matches (o : set_order)
    (gfactory_DB : factory) (topology_DB : topology)
  : result (list (scalar * scalar)) :=
  for_each (iter o (match_non_resource_names gfactory_DB topology_DB)) []
    (λ ret name,
       entries ← subscript gfactory_DB name ;
       Ok (foldl (λ ret entry, ret ++ [(entry, name)]) ret entries)).

Definition nonmatch_all_names (gfactory_DB : factory) (topology_DB : topology)
  : gset scalar :=
  dom gfactory_DB
    ∖ (resources topology_DB ∪ sites topology_DB ∪ facilities topology_DB
         ∪ resourceGroups topology_DB).

Definition find_non_topology_matches (o : set_order)
    (gfactory_DB : factory) (topology_DB : topology)
  : result (list scalar) :=
  for_each (iter o (nonmatch_all_names gfactory_DB topology_DB)) []
    (λ ret name,
       entries ← subscript gfactory_DB name ;
       Ok (ret ++ entries)).

(** ** XML documents *)

(** An [xml.etree.ElementTree.Element]: tag, attribute dictionary, text and
    children in document order. *)
Inductive element :=
| Element (tag : string) (attrib : list (string * string))
          (text : option string) (children : list element).

Definition tag (e : element) : string :=
  match e with Element t _ _ _ => t end.
Definition attrib (e : element) : list (string * string) :=
  match e with Element _ a _ _ => a end.
Definition text (e : element) : option string :=
  match e with Element _ _ x _ => x end.
Definition children (e : element) : list element :=
  match e with Element _ _ _ c => c end.

(** [e.get(key)] *)
Fixpoint assoc {V} (key : string) (kvs : list (string * V)) : option V :=
  match kvs with
  | [] => None
  | (k, v) :: rest => if decide (k = key) then Some v else assoc key rest
  end.

Definition get (e : element) (key : string) : option string :=
  assoc key (attrib e).

(** [e.findall('t1/t2/...')] for a path of plain tags, in document order. *)
Fixpoint findall (path : list string) (e : element) : list element :=
  match path with
  | [] => [e]
  | t :: rest =>
      filter (λ c, tag c = t) (children e) ≫= findall rest
  end.

(** [e.find(t)]: the first child with that tag, or [None]. *)
Definition find (t : string) (e : element) : option element :=
  head (findall [t] e).

(** [e.find(t).text], which raises on [None.text]. *)
Definition find_text (t : string) (e : element) : result scalar :=
  match find t e with
  | Some c => Ok (of_opt (text c))
  | None => Raise AttributeError
  end.

(** ** YAML documents *)

(** What [yaml.safe_load] returns: scalars, sequences, and mappings in
    document order (a [dict] keeps insertion order). *)
Inductive yaml :=
| YScalar (s : scalar)
| YSeq (items : list yaml)
| YMap (items : list (scalar * yaml)).

(** [v.values()] *)
Definition values (v : yaml) : result (list yaml) :=
  match v with
  | YMap m => Ok (m.*2)
  | _ => Raise AttributeError
  end.

(** [v.items()] *)
Definition items (v : yaml) : result (list (scalar * yaml)) :=
  match v with
  | YMap m => Ok m
  | _ => Raise AttributeError
  end.

Fixpoint ylookup (key : scalar) (m : list (scalar * yaml)) : option yaml :=
  match m with
  | [] => None
  | (k, v) :: rest => if decide (k = key) then Some v else ylookup key rest
  end.

(** [v[key]] for a string key. *)
Definition getitem (v : yaml) (key : string) : result yaml :=
  match v with
  | YMap m =>
      match ylookup (SStr key) m with
      | Some x => Ok x
      | None => Raise KeyError
      end
  | _ => Raise TypeError
  end.

(** Use of a value as a dictionary key: lists and dicts are unhashable. *)
Definition hashable (v : yaml) : result scalar :=
  match v with
  | YScalar s => Ok s
  | _ => Raise TypeError
  end.

(** ** The factory loader *)

(** [gfactory_DB[key].append(entry)] *)
Definition append_entry (gfactory_DB : factory) (key entry : scalar)
  : result factory :=
  l ← subscript gfactory_DB key;
  Ok (<[key := l ++ [entry]]> gfactory_DB).

(** [try: db[key].append(entry)
    except KeyError: db[key] = []; db[key].append(entry)] *)
Definition record (gfactory_DB : factory) (key entry : scalar) : factory :=
  match append_entry gfactory_DB key entry with
  | Ok db => db
  | Raise _ =>
      match append_entry (<[key := []]> gfactory_DB) key entry with
      | Ok db => db
      | Raise _ => gfactory_DB
      end
  end.

(** The loop over [entry.findall('attrs/attr')], left at the first attribute
    named GLIDEIN_ResourceName. *)
Fixpoint load_attrs (gfactory_DB : factory) (entry : element)
    (attrs : list element) : factory :=
  match attrs with
  | [] => gfactory_DB
  | attr :: rest =>
      if decide (get attr "name" = Some "GLIDEIN_ResourceName") then
        record gfactory_DB (of_opt (get attr "value")) (of_opt (get entry "name"))
      else load_attrs gfactory_DB entry rest
  end.

Definition load_xml_entry (gfactory_DB : factory) (entry : element) : factory :=
  if decide (get entry "enabled" = Some "True") then
    load_attrs gfactory_DB entry (findall ["attrs"; "attr"] entry)
  else gfactory_DB.

Definition load_xml (gfactory_DB : factory) (root : element) : factory :=
  foldl load_xml_entry gfactory_DB (findall ["entries"; "entry"] root).

(** The body of the loop over [entry.items()]. *)
Definition load_yaml_record (gfactory_DB : factory) (entry_name : scalar)
    (config : yaml) : result factory :=
  attrs ← getitem config "attrs";
  resource_name ← getitem attrs "GLIDEIN_ResourceName";
  key ← hashable resource_name;
  Ok (record gfactory_DB key entry_name).

(** The loop over [entry.items()] inside the [try]: an exception leaves the
    loop, and the dictionary keeps what was recorded before it. *)
Fixpoint load_yaml_records (gfactory_DB : factory)
    (records : list (scalar * yaml)) : factory :=
  match records with
  | [] => gfactory_DB
  | (entry_name, config) :: rest =>
      match load_yaml_record gfactory_DB entry_name config with
      | Ok db => load_yaml_records db rest
      | Raise _ => gfactory_DB
      end
  end.

(** [try: for entry_name, config in entry.items(): ...
    except: continue] *)
Definition load_yaml_entry (gfactory_DB : factory) (entry : yaml) : factory :=
  match items entry with
  | Ok records => load_yaml_records gfactory_DB records
  | Raise _ => gfactory_DB
  end.

Definition load_yaml_resource (gfactory_DB : factory) (resource : yaml)
  : result factory :=
  entries ← values resource;
  Ok (foldl load_yaml_entry gfactory_DB entries).

(** [data] is [None] when [yaml.safe_load] raised [YAMLError]: the handler
    prints the error and falls through, and [data] is then unbound. *)
Definition load_yaml (gfactory_DB : factory) (data : option yaml)
  : result factory :=
  match data with
  | None => Raise UnboundLocalError
  | Some data =>
      resources ← values data;
      for_each resources gfactory_DB load_yaml_resource
  end.

(** [s.endswith(suffix)] *)
Definition endswith (s suffix : string) : bool :=
  let n := String.length s in
  let m := String.length suffix in
  if decide (m ≤ n) then
    bool_decide (String.substring (n - m) m s = suffix)
  else false.

(** [s.startswith(p)] *)
Definition startswith (s p : string) : bool := String.prefix p s.

(** A file handed to the loader: its name, and what each parser makes of its
    contents ([None] when [ET.parse], respectively [yaml.safe_load], raises). *)
Record source_file := {
  filename : string;
  xml_tree : option element;
  yaml_data : option yaml
}.

(** The diagnostic branches under [factory_dump] and [tree_dump] are not
    taken: both toggles are [False]. *)
Definition get_gfactory_data (gfactory_DB : factory) (file : source_file)
  : result factory :=
  if endswith (filename file) "xml" then
    match xml_tree file with
    | Some root => Ok (load_xml gfactory_DB root)
    | None => Raise XMLParseError
    end
  else load_yaml gfactory_DB (yaml_data file).

(** [for xml in gfactory: get_gfactory_data(gfactory_DB, xml)] *)
Definition load_all (gfactory_DB : factory) (files : list source_file)
  : result factory :=
  for_each files gfactory_DB get_gfactory_data.

(** ** The topology loader *)

Definition add_resourceGroup (x : scalar) (t : topology) : topology :=
  {| resources := resources t; sites := sites t; facilities := facilities t;
     resourceGroups := {[x]} ∪ resourceGroups t |}.
Definition add_facility (x : scalar) (t : topology) : topology :=
  {| resources := resources t; sites := sites t;
     facilities := {[x]} ∪ facilities t; resourceGroups := resourceGroups t |}.
Definition add_site (x : scalar) (t : topology) : topology :=
  {| resources := resources t; sites := {[x]} ∪ sites t;
     facilities := facilities t; resourceGroups := resourceGroups t |}.
Definition add_resource (x : scalar) (t : topology) : topology :=
  {| resources := {[x]} ∪ resources t; sites := sites t;
     facilities := facilities t; resourceGroups := resourceGroups t |}.

(** [for e in es: db[...].add(e.find(t).text)] *)
Definition add_names (add : scalar → topology → topology) (t : string)
    (es : list element) (topology_DB : topology) : result topology :=
  for_each es topology_DB (λ db e, name ← find_text t e; Ok (add name db)).

Definition load_resource_group (topology_DB : topology) (child : element)
  : result topology :=
  name ← find_text "GroupName" child;
  db ← add_names add_facility "Name" (findall ["Facility"] child)
         (add_resourceGroup name topology_DB);
  db ← add_names add_site "Name" (findall ["Site"] child) db;
  add_names add_resource "Name" (findall ["Resources"; "Resource"] child) db.

(** [topology_page] is what [ET.fromstring] makes of the fetched page. *)
Definition get_topology_data (topology_DB : topology) (topology_root : element)
  : result topology :=
  for_each (findall ["ResourceGroup"] topology_root) topology_DB
    load_resource_group.

Definition empty_topology : topology :=
  {| resources := ∅; sites := ∅; facilities := ∅; resourceGroups := ∅ |}.
(** ** The report *)

(** [str(x)] as an f-string renders it. *)
Definition str (x : scalar) : string :=
  match x with
  | SNone => "None"
  | SInt z => pretty z
  | SStr s => s
  end.

Definition as_str (x : scalar) : option string :=
  match x with SStr s => Some s | _ => None end.
Definition as_int (x : scalar) : option Z :=
  match x with SInt z => Some z | _ => None end.

(** [sorted(set(xs))].  With two or more distinct elements the sort compares
    across every element, and [<] raises [TypeError] between [str] and [int]
    and on [None]. *)
Definition sorted_set (xs : list scalar) : result (list scalar) :=
  let distinct := remove_dups xs in
  match distinct with
  | [] | [_] => Ok distinct
  | _ =>
      match mapM as_str distinct, mapM as_int distinct with
      | Some ss, _ => Ok (SStr <$> merge_sort String.le ss)
      | None, Some zs => Ok (SInt <$> merge_sort Z.le zs)
      | None, None => Raise TypeError
      end
  end.

Definition mismatch_line (x : scalar * scalar) : string :=
  "- " +:+ str x.1 +:+ ": " +:+ str x.2.
Definition orphan_line (x : scalar) : string := "- " +:+ str x.

Definition mismatch_header : string :=
  String (Ascii.ascii_of_nat 10) "Factory entries that match a Topology entity other than a resource: "
    +:+ String (Ascii.ascii_of_nat 10) "".
Definition orphan_header : string :=
  String (Ascii.ascii_of_nat 10) "Factory entries that do not match any entity in Topology: "
    +:+ String (Ascii.ascii_of_nat 10) "".

(** ** The temporary directory *)

(** Whether the operating system lets a file be removed: at once, only after
    its read-only bit is cleared, or not at all. *)
Inductive access := Removable | ReadOnly | Denied.

(** A file of the cloned repository: the directory it is in (relative to the
    clone, empty for the top level), its name, and what the parsers make of
    its contents.  The tree is kept flat. *)
Record repo_file := {
  rf_dir : string;
  rf_name : string;
  rf_access : access;
  rf_xml : option element;
  rf_yaml : option yaml
}.

(** [os.unlink(path)] *)
Definition unlink (f : repo_file) : result unit :=
  match rf_access f with
  | Removable => Ok ()
  | ReadOnly | Denied => Raise PermissionError
  end.

(** [os.chmod(path, stat.S_IWRITE)] *)
Definition chmod_write (f : repo_file) : repo_file :=
  {| rf_dir := rf_dir f; rf_name := rf_name f;
     rf_access := match rf_access f with
                  | ReadOnly => Removable
                  | a => a
                  end;
     rf_xml := rf_xml f; rf_yaml := rf_yaml f |}.

(** [remove_readonly(func, path, _)]: the file after the [chmod], and the
    outcome of the second attempt. *)
Definition remove_readonly (func : repo_file → result unit) (f : repo_file)
  : repo_file * result unit :=
  let f' := chmod_write f in (f', func f').

(** [shutil.rmtree(dir, onerror=...)] over the files of the directory: what
    is left of them, and the outcome.  A removal that fails goes to
    [onerror]; an exception out of [onerror] ends the walk. *)
Fixpoint rmtree_files
    (onerror : (repo_file → result unit) → repo_file → repo_file * result unit)
    (files : list repo_file) : list repo_file * result unit :=
  match files with
  | [] => ([], Ok ())
  | f :: rest =>
      match unlink f with
      | Ok _ => rmtree_files onerror rest
      | Raise _ =>
          match onerror unlink f with
          | (_, Ok _) => rmtree_files onerror rest
          | (f', Raise e) => (f' :: rest, Raise e)
          end
      end
  end.

(** The state a run acts on: the temporary directory ([None] when it does not
    exist, else its files) and the lines of the report printed so far, one
    per call of [print].  The diagnostic that the handler of a [YAMLError]
    prints before the run ends is not kept. *)
Record world := {
  tmp : option (list repo_file);
  stdout : list string
}.

Definition set_tmp (d : option (list repo_file)) (w : world) : world :=
  {| tmp := d; stdout := stdout w |}.
Definition print (line : string) (w : world) : world :=
  {| tmp := tmp w; stdout := stdout w ++ [line] |}.

(** [shutil.rmtree(temp_dir, onerror=remove_readonly)] *)
Definition rmtree (w : world) : result unit * world :=
  match tmp w with
  | None => (Raise FileNotFoundError, w)
  | Some files =>
      match rmtree_files remove_readonly files with
      | (_, Ok _) => (Ok (), set_tmp None w)
      | (remaining, Raise e) => (Raise e, set_tmp (Some remaining) w)
      end
  end.

(** What the outside gives to one run: the parsed topology page (or the
    exception of the fetch), the path [mkdtemp] returns, and the files the
    clone puts there (or its exception). *)
Record env := {
  topology_page : result element;
  temp_dir : string;
  clone_from : result (list repo_file)
}.

(** [glob.glob(path + '/*' + suffix)], where [path] is the absolute path of
    the directory [dir] of the clone: the files of that directory whose name
    matches, in listing order.  The pattern does not match names that start
    with a dot. *)
Definition glob (path dir suffix : string) (files : list repo_file)
  : list source_file :=
  (λ f, {| filename := path +:+ "/" +:+ rf_name f;
           xml_tree := rf_xml f; yaml_data := rf_yaml f |})
    <$> filter (λ f, rf_dir f = dir
                     ∧ endswith (rf_name f) suffix = true
                     ∧ startswith (rf_name f) "." = false) files.

(** A step of a run acts on the world. *)
Abbreviation io := (st world).

Fixpoint print_all {A} (line : A → string) (xs : list A) : io unit :=
  match xs with
  | [] => lift (Ok ())
  | x :: rest => (act (print (line x)) ;>> print_all line rest)
  end.

Definition report (match_nonresource_entries : list (scalar * scalar))
    (nonmatch_all_entries : list scalar) : io unit :=
  (act (print mismatch_header) ;>>
   print_all mismatch_line match_nonresource_entries ;>>
   act (print orphan_header) ;>>
   names ⇐ lift (sorted_set nonmatch_all_entries) ;>
   print_all orphan_line names ;>>
   act (print "")).

Definition run (o : set_order) (e : env) : io unit :=
  (root ⇐ lift (topology_page e) ;>
   topology_DB ⇐ lift (get_topology_data empty_topology root) ;>
   act (set_tmp (Some [])) ;>>
   files ⇐ lift (clone_from e) ;>
   act (set_tmp (Some files)) ;>>
   let gfactory :=
     glob (temp_dir e) "" ".xml" files
       ++ glob (temp_dir e +:+ "/OSG_autoconf") "OSG_autoconf" ".yml" files in
   gfactory_DB ⇐ lift (load_all ∅ gfactory) ;>
   match_nonresource_entries ⇐
     lift (find_non_resource_matches o gfactory_DB topology_DB) ;>
   nonmatch_all_entries ⇐
     lift (find_non_topology_matches o gfactory_DB topology_DB) ;>
   report match_nonresource_entries nonmatch_all_entries ;>>
   rmtree).
(** ** The reconciler over shared objects *)

(** The two functions again, at the level of Python objects: the
    dictionaries, sets and lists they are handed are references into a
    store, [ret] is a list object they create and append to, and the set
    methods return new set objects. *)
Module Heap.

Definition loc := positive.

Inductive value :=
| VScalar (s : scalar)
| VPair (a b : value).

Inductive obj :=
| OList (xs : list value)
| OSet (X : gset scalar)
| ODict (d : gmap scalar loc).

Abbreviation heap := (gmap loc obj).

(** A new object. *)
Definition alloc (o : obj) : st heap loc := λ h,
  let l := fresh (dom h) in (Ok l, <[l := o]> h).

(** The object behind a reference.  A reference without an object does not
    arise in Python; the model raises there. *)
Definition load (l : loc) : st heap obj := λ h,
  match h !! l with
  | Some o => (Ok o, h)
  | None => (Raise TypeError, h)
  end.

Definition store (l : loc) (o : obj) : st heap unit :=
  act (λ h, <[l := o]> h).

Definition get_list (l : loc) : st heap (list value) :=
  (o ⇐ load l ;>
   lift (match o with OList xs => Ok xs | _ => Raise TypeError end)).

Definition get_set (l : loc) : st heap (gset scalar) :=
  (o ⇐ load l ;>
   lift (match o with OSet X => Ok X | _ => Raise TypeError end)).

Definition get_dict (l : loc) : st heap (gmap scalar loc) :=
  (o ⇐ load l ;>
   lift (match o with ODict d => Ok d | _ => Raise TypeError end)).

(** [d[k]] *)
Definition getitem (d : loc) (k : scalar) : st heap loc :=
  (m ⇐ get_dict d ;>
   lift (match m !! k with Some l => Ok l | None => Raise KeyError end)).

(** [set(d.keys())] *)
Definition set_of_keys (d : loc) : st heap loc :=
  (m ⇐ get_dict d ;> alloc (OSet (dom m))).

(** [a.difference(b)] *)
Definition difference (a b : loc) : st heap loc :=
  (X ⇐ get_set a ;> Y ⇐ get_set b ;> alloc (OSet (X ∖ Y))).

(** [a.intersection(b)] *)
Definition intersection (a b : loc) : st heap loc :=
  (X ⇐ get_set a ;> Y ⇐ get_set b ;> alloc (OSet (X ∩ Y))).

Fixpoint get_sets (ls : list loc) : st heap (list (gset scalar)) :=
  match ls with
  | [] => lift (Ok [])
  | l :: rest => (X ⇐ get_set l ;> Xs ⇐ get_sets rest ;> lift (Ok (X :: Xs)))
  end.

(** [a.union(b1, b2, ...)] *)
Definition union (a : loc) (bs : list loc) : st heap loc :=
  (X ⇐ get_set a ;> Ys ⇐ get_sets bs ;> alloc (OSet (X ∪ ⋃ Ys))).

(** [l.append(v)] *)
Definition append (l : loc) (v : value) : st heap unit :=
  (xs ⇐ get_list l ;> store l (OList (xs ++ [v]))).

(** [l.extend(src)] *)
Definition extend (l src : loc) : st heap unit :=
  (ys ⇐ get_list src ;> xs ⇐ get_list l ;> store l (OList (xs ++ ys))).

(** The elements a [for] loop over the set visits. *)
Definition iterate (o : set_order) (s : loc) : st heap (list scalar) :=
  (X ⇐ get_set s ;> lift (Ok (iter o X))).

(** The elements a [for] loop over the list visits.  The loops below append
    to [ret] only, a list they created themselves. *)
Definition iterate_list (l : loc) : st heap (list value) := get_list l.

Definition find_non_resource_matches (o : set_order)
    (gfactory_DB topology_DB : loc) : st heap loc :=
  (ret ⇐ alloc (OList []) ;>
   keys ⇐ set_of_keys gfactory_DB ;>
   resources ⇐ getitem topology_DB (SStr "resources") ;>
   nonmatch_resource_names ⇐ difference keys resources ;>
   resourceGroups ⇐ getitem topology_DB (SStr "resourceGroups") ;>
   sites ⇐ getitem topology_DB (SStr "sites") ;>
   facilities ⇐ getitem topology_DB (SStr "facilities") ;>
   others ⇐ union resourceGroups [sites; facilities] ;>
   match_non_resource_names ⇐ intersection nonmatch_resource_names others ;>
   names ⇐ iterate o match_non_resource_names ;>
   for_st names (λ name,
     entries_ref ⇐ getitem gfactory_DB name ;>
     entries ⇐ iterate_list entries_ref ;>
     for_st entries (λ entry, append ret (VPair entry (VScalar name)))) ;>>
   lift (Ok ret)).

Definition find_non_topology_matches (o : set_order)
    (gfactory_DB topology_DB : loc) : st heap loc :=
  (ret ⇐ alloc (OList []) ;>
   keys ⇐ set_of_keys gfactory_DB ;>
   resources ⇐ getitem topology_DB (SStr "resources") ;>
   sites ⇐ getitem topology_DB (SStr "sites") ;>
   facilities ⇐ getitem topology_DB (SStr "facilities") ;>
   resourceGroups ⇐ getitem topology_DB (SStr "resourceGroups") ;>
   known ⇐ union resources [sites; facilities; resourceGroups] ;>
   nonmatch_all_names ⇐ difference keys known ;>
   names ⇐ iterate o nonmatch_all_names ;>
   for_st names (λ name,
     entries_ref ⇐ getitem gfactory_DB name ;>
     extend ret entries_ref) ;>>
   lift (Ok ret)).

(** The store holds the FactoryIndex [f] behind [l]: a dictionary whose keys
    are those of [f], each bound to a list object with the entries of [f]. *)
Definition holds_factory (h : heap) (l : loc) (f : factory) : Prop :=
  ∃ m, h !! l = Some (ODict m) ∧ dom m = dom f
       ∧ ∀ k lk, m !! k = Some lk →
           h !! lk = Some (OList (VScalar <$> f !!! k)).

Definition holds_set (h : heap) (m : gmap scalar loc) (key : string)
    (X : gset scalar) : Prop :=
  ∃ l, m !! SStr key = Some l ∧ h !! l = Some (OSet X).

(** The store holds the RegistryIndex [t] behind [l]: a dictionary with the
    four set objects. *)
Definition holds_topology (h : heap) (l : loc) (t : topology) : Prop :=
  ∃ m, h !! l = Some (ODict m)
       ∧ holds_set h m "resources" (resources t)
       ∧ holds_set h m "sites" (sites t)
       ∧ holds_set h m "facilities" (facilities t)
       ∧ holds_set h m "resourceGroups" (resourceGroups t).

Definition pair_value (p : scalar * scalar) : value :=
  VPair (VScalar p.1) (VScalar p.2).

End Heap.

(** ** Definitions used in the statements *)

(** *** The reconciler *)

(** The pairs emitted for one name. *)
Definition records_of (gfactory_DB : factory) (name : scalar)
  : list (scalar * scalar) :=
  (λ entry, (entry, name)) <$> (gfactory_DB !!! name).

(** *** Indexes and their merge *)

(** The index that holds, under every key, the entries of [d1] followed by
    those of [d2]. *)
Definition merge (d1 d2 : factory) : factory :=
  union_with (λ l1 l2, Some (l1 ++ l2)) d1 d2.

(** Same keys, and under every key the same entries up to their order. *)
Definition same_associations (d1 d2 : factory) : Prop :=
  dom d1 = dom d2 ∧ ∀ k, d1 !!! k ≡ₚ d2 !!! k.

Definition same_outcome (r1 r2 : result factory) : Prop :=
  match r1, r2 with
  | Ok d1, Ok d2 => same_associations d1 d2
  | Raise _, Raise _ => True
  | _, _ => False
  end.

Definition record_all (db : factory) (l : list (scalar * scalar)) : factory :=
  foldl (λ d p, record d p.1 p.2) db l.

(** *** XML entries *)

Definition is_resource_name (attr : element) : bool :=
  bool_decide (get attr "name" = Some "GLIDEIN_ResourceName").

(** *** YAML records *)

Definition is_mapping (v : yaml) : bool :=
  match v with YMap _ => true | _ => false end.

(** The key a record is stored under, when its configuration has one. *)
Definition resource_key (config : yaml) : result scalar :=
  attrs ← getitem config "attrs";
  resource_name ← getitem attrs "GLIDEIN_ResourceName";
  hashable resource_name.

(** A record (entry name, configuration) is well formed when the loop body
    goes through on it. *)
Definition well_formed (r : scalar * yaml) : bool := is_ok (resource_key r.2).

(** The associations (key, entry name) of the records that precede the
    first malformed one. *)
Fixpoint recorded_records (records : list (scalar * yaml))
  : list (scalar * scalar) :=
  match records with
  | [] => []
  | (entry_name, config) :: rest =>
      match resource_key config with
      | Ok key => (key, entry_name) :: recorded_records rest
      | Raise _ => []
      end
  end.

Definition mapping_values (v : yaml) : list yaml :=
  match v with YMap m => m.*2 | _ => [] end.

Definition recorded_entry (entry : yaml) : list (scalar * scalar) :=
  match entry with YMap records => recorded_records records | _ => [] end.

Definition recorded_resource (resource : yaml) : list (scalar * scalar) :=
  mapping_values resource ≫= recorded_entry.

Definition recorded (data : yaml) : list (scalar * scalar) :=
  mapping_values data ≫= recorded_resource.

Definition map_values (f : yaml → yaml) (v : yaml) : yaml :=
  match v with
  | YMap m => YMap (prod_map id f <$> m)
  | _ => v
  end.

Definition filter_values (P : yaml → bool) (v : yaml) : yaml :=
  match v with
  | YMap m => YMap (filter (λ kv, P kv.2 = true) m)
  | _ => v
  end.

Definition drop_malformed_records (entry : yaml) : yaml :=
  match entry with
  | YMap records => YMap (filter (λ r, well_formed r = true) records)
  | _ => entry
  end.

(** The document without its malformed records. *)
Definition drop_malformed (data : yaml) : yaml :=
  map_values (map_values drop_malformed_records) data.

Definition all_well_formed (entry : yaml) : bool :=
  match entry with
  | YMap records => forallb well_formed records
  | _ => false
  end.

(** The document without the entries that have a malformed record. *)
Definition drop_malformed_entries (data : yaml) : yaml :=
  map_values (filter_values all_well_formed) data.

(** *** Computations over the store *)

(** Run from a store that extends [h0], the computation leaves a store that
    extends [h0], and what it returns satisfies [Q]. *)
Definition keeps (h0 : Heap.heap) {A} (m : st Heap.heap A) (Q : A → Prop)
  : Prop :=
  ∀ h, h0 ⊆ h → h0 ⊆ (m h).2 ∧ ∀ a, (m h).1 = Ok a → Q a.

(** From [h] the computation returns, with a value and a store in [Q]. *)
Definition returns {A} (m : st Heap.heap A) (h : Heap.heap)
    (Q : A → Heap.heap → Prop) : Prop :=
  ∃ a h', m h = (Ok a, h') ∧ Q a h'.

(** ** Sample inputs *)

Definition ex_topology : topology :=
  {| resources := {[SStr "R1"]}; sites := {[SStr "S1"]};
     facilities := ∅; resourceGroups := ∅ |}.

Definition ex_factory : factory :=
  <[SStr "S1" := [SStr "EntryA"]]>
    (<[SStr "R1" := [SStr "EntryB"]]>
       (<[SStr "X9" := [SStr "EntryC"]]> ∅)).

(** Two names that match nothing, with the same entry name. *)
Definition dup_factory : factory :=
  <[SStr "X1" := [SStr "EntryA"]]> (<[SStr "X2" := [SStr "EntryA"]]> ∅).


Definition attr_el (name value : string) : element :=
  Element "attr" [("name", name); ("value", value)] None [].

Definition entry_el (name enabled : string) (attrs : list element) : element :=
  Element "entry" [("name", name); ("enabled", enabled)] None
    [Element "attrs" [] None attrs].

Definition factory_el (entries : list element) : element :=
  Element "glidein" [] None [Element "entries" [] None entries].

Definition config_of (resource_name : yaml) : yaml :=
  YMap [(SStr "attrs", YMap [(SStr "GLIDEIN_ResourceName", resource_name)])].

Definition autoconf_of (records : list (scalar * yaml)) : yaml :=
  YMap [(SStr "SITE", YMap [(SStr "ce.example.org", YMap records)])].

Definition xml_file (name : string) (root : element) : source_file :=
  {| filename := name; xml_tree := Some root; yaml_data := None |}.

Definition yml_file (name : string) (data : option yaml) : source_file :=
  {| filename := name; xml_tree := None; yaml_data := data |}.

Definition file_D : source_file :=
  xml_file "a.xml"
    (factory_el [entry_el "EntryD" "True" [attr_el "GLIDEIN_ResourceName" "R2"]]).

Definition file_E : source_file :=
  yml_file "b.yml"
    (Some (autoconf_of [(SStr "EntryE", config_of (YScalar (SStr "R2")))])).


Definition kept_records : list (scalar * yaml) :=
  [(SStr "e0", config_of (YScalar (SStr "R0")))].

Definition late_records : list (scalar * yaml) :=
  [(SStr "e2", config_of (YScalar (SStr "R1")))].

(** An entry mapping with a malformed record between two well-formed ones. *)
Definition cut_document : yaml :=
  autoconf_of (kept_records ++ (SStr "e1", YMap []) :: late_records).

Definition topology_el : element :=
  Element "ResourceSummary" [] None
    [Element "ResourceGroup" [] None
       [Element "GroupName" [] (Some "G1") [];
        Element "Facility" [] None [Element "Name" [] (Some "F1") []];
        Element "Site" [] None [Element "Name" [] (Some "S1") []];
        Element "Resources" [] None
          [Element "Resource" [] None [Element "Name" [] (Some "R1") []]]]].

Definition repo_xml : repo_file :=
  {| rf_dir := ""; rf_name := "glideinWMS.xml"; rf_access := ReadOnly;
     rf_xml := Some (factory_el
                 [entry_el "EntryA" "True" [attr_el "GLIDEIN_ResourceName" "S1"];
                  entry_el "EntryC" "True" [attr_el "GLIDEIN_ResourceName" "X9"]]);
     rf_yaml := None |}.

Definition repo_yml (data : option yaml) : repo_file :=
  {| rf_dir := "OSG_autoconf"; rf_name := "10-hosted-ces.auto.yml";
     rf_access := Removable; rf_xml := None; rf_yaml := data |}.

Definition env_of (files : list repo_file) : env :=
  {| topology_page := Ok topology_el; temp_dir := "/tmp/tmpab12cd";
     clone_from := Ok files |}.

Definition start : world := {| tmp := None; stdout := [] |}.

(** A store with the index {S1: [EntryA]} behind reference 1 and the
    registry of [ex_topology] behind reference 3. *)
Definition heap_ex : Heap.heap :=
  list_to_map
    [(1%positive, Heap.ODict {[SStr "S1" := 2%positive]});
     (2%positive, Heap.OList [Heap.VScalar (SStr "EntryA")]);
     (3%positive,
      Heap.ODict
        (list_to_map
           [(SStr "resources", 4%positive); (SStr "sites", 5%positive);
            (SStr "facilities", 6%positive);
            (SStr "resourceGroups", 7%positive)]));
     (4%positive, Heap.OSet {[SStr "R1"]});
     (5%positive, Heap.OSet {[SStr "S1"]});
     (6%positive, Heap.OSet ∅);
     (7%positive, Heap.OSet ∅)].

Definition factory_ex : factory := {[SStr "S1" := [SStr "EntryA"]]}.

(** ** Further definitions used in the statements *)

(** Python's [<=] between two names, where it is defined. *)
Definition py_le (x y : scalar) : Prop :=
  match x, y with
  | SStr a, SStr b => String.le a b
  | SInt a, SInt b => (a ≤ b)%Z
  | _, _ => False
  end.

(** Whether Python's [<] is defined between two names. *)
Definition comparable (x y : scalar) : bool :=
  match x, y with
  | SStr _, SStr _ | SInt _, SInt _ => true
  | _, _ => false
  end.

(** Every key of the index has at least one entry. *)
Definition no_empty_list (d : factory) : Prop :=
  ∀ k l, d !! k = Some l → l ≠ [].

(** The association an XML entry contributes: the value of its first attr
    named GLIDEIN_ResourceName and its own name, when it is enabled and has
    such an attr. *)
Definition xml_association (entry : element) : option (scalar * scalar) :=
  if decide (get entry "enabled" = Some "True") then
    match List.find is_resource_name (findall ["attrs"; "attr"] entry) with
    | Some attr => Some (of_opt (get attr "value"), of_opt (get entry "name"))
    | None => None
    end
  else None.

(** The entry names that a list of associations has for a key, in order. *)
Definition entries_for (key : scalar) (l : list (scalar * scalar))
  : list scalar :=
  (filter (λ p, p.1 = key) l).*2.

(** The association a YAML record (entry name, configuration) contributes:
    the GLIDEIN_ResourceName of its attrs and its entry name, when the
    configuration has one and it is a scalar. *)
Definition yaml_association (r : scalar * yaml) : option (scalar * scalar) :=
  match getitem r.2 "attrs" with
  | Ok attrs =>
      match getitem attrs "GLIDEIN_ResourceName" with
      | Ok (YScalar key) => Some (key, r.1)
      | _ => None
      end
  | Raise _ => None
  end.

(** A record whose GLIDEIN_ResourceName is there but is a mapping (such as a
    [{value: ...}] object) or a sequence. *)
Definition names_a_container (r : scalar * yaml) : Prop :=
  ∃ attrs v,
    getitem r.2 "attrs" = Ok attrs
    ∧ getitem attrs "GLIDEIN_ResourceName" = Ok v
    ∧ ∀ key, v ≠ YScalar key.

Definition mapping_items (v : yaml) : list (scalar * yaml) :=
  match v with YMap m => m | _ => [] end.

(** The records of a document, in document order. *)
Definition yaml_records (data : yaml) : list (scalar * yaml) :=
  mapping_values data ≫= λ resource,
    mapping_values resource ≫= mapping_items.

(** Whether [e.find(t)] finds a child. *)
Definition has_child (t : string) (e : element) : bool :=
  match find t e with Some _ => true | None => false end.

(** The texts of the [t] children, for the elements that have one. *)
Definition texts (t : string) (es : list element) : list scalar :=
  omap (λ e, (λ c, of_opt (text c)) <$> find t e) es.

(** A ResourceGroup element whose names can all be read: it has a GroupName,
    and its Facility, Site and Resource elements have a Name. *)
Definition well_named (child : element) : bool :=
  has_child "GroupName" child
  && forallb (has_child "Name") (findall ["Facility"] child)
  && forallb (has_child "Name") (findall ["Site"] child)
  && forallb (has_child "Name") (findall ["Resources"; "Resource"] child).

(** The registry with more names in its four sets. *)
Definition extend_topology (t : topology) (rg fa si re : list scalar)
  : topology :=
  {| resources := resources t ∪ list_to_set re;
     sites := sites t ∪ list_to_set si;
     facilities := facilities t ∪ list_to_set fa;
     resourceGroups := resourceGroups t ∪ list_to_set rg |}.



Example scenario_mismatches :
  find_non_resource_matches canonical_order ex_factory ex_topology
  = Ok [(SStr "EntryA", SStr "S1")].
Proof. vm_compute. reflexivity. Qed.

Example scenario_orphans :
  find_non_topology_matches reversed_order ex_factory ex_topology
  = Ok [SStr "EntryC"].
Proof. vm_compute. reflexivity. Qed.

(** ** Loops that only append *)

Lemma for_each_extend {A B} (xs : list A) (g : A → list B)
    (body : list B → A → result (list B)) (acc : list B) :
  (∀ x acc', x ∈ xs → body acc' x = Ok (acc' ++ g x)) →
  for_each xs acc body = Ok (acc ++ (xs ≫= g)).
Proof.
  revert acc. induction xs as [|x xs IH]; intros acc Hbody; simpl.
  - by rewrite app_nil_r.
  - rewrite Hbody by left. simpl.
    rewrite IH; [by rewrite app_assoc|].
    intros y acc' Hy. apply Hbody. by right.
Qed.

Lemma foldl_snoc_pairs (name : scalar) (entries : list scalar)
    (ret : list (scalar * scalar)) :
  foldl (λ ret entry, ret ++ [(entry, name)]) ret entries
  = ret ++ ((λ entry, (entry, name)) <$> entries).
Proof.
  revert ret. induction entries as [|e es IH]; intros ret; simpl.
  - by rewrite app_nil_r.
  - rewrite IH. by rewrite <- app_assoc.
Qed.

Lemma subscript_dom (d : factory) (k : scalar) :
  k ∈ dom d → subscript d k = Ok (d !!! k).
Proof.
  intros [v Hv]%elem_of_dom. unfold subscript.
  by rewrite lookup_total_alt, Hv.
Qed.

Lemma iter_elem_of (o : set_order) (X : gset scalar) (x : scalar) :
  x ∈ iter o X ↔ x ∈ X.
Proof. rewrite (iter_perm o X). apply elem_of_elements. Qed.

Lemma iter_NoDup (o : set_order) (X : gset scalar) : NoDup (iter o X).
Proof. rewrite (iter_perm o X). apply NoDup_elements. Qed.

Lemma iter_empty (o : set_order) : iter o ∅ = [].
Proof.
  apply Permutation_nil_r. rewrite (iter_perm o ∅). by rewrite elements_empty.
Qed.

Lemma find_non_resource_matches_eq o (f : factory) t :
  find_non_resource_matches o f t
  = Ok (iter o (match_non_resource_names f t) ≫= records_of f).
Proof.
  unfold find_non_resource_matches.
  rewrite (for_each_extend _ (records_of f)); [done|].
  intros name acc Hname. apply iter_elem_of in Hname.
  rewrite subscript_dom.
  - simpl. by rewrite foldl_snoc_pairs.
  - unfold match_non_resource_names, nonmatch_resource_names in Hname.
    apply elem_of_intersection in Hname as [Hname _].
    by apply elem_of_difference in Hname as [Hname _].
Qed.

Lemma find_non_topology_matches_eq o (f : factory) t :
  find_non_topology_matches o f t
  = Ok (iter o (nonmatch_all_names f t) ≫= (f !!!.)).
Proof.
  unfold find_non_topology_matches.
  rewrite (for_each_extend _ (f !!!.)); [done|].
  intros name acc Hname. apply iter_elem_of in Hname.
  rewrite subscript_dom; [done|].
  unfold nonmatch_all_names in Hname.
  by apply elem_of_difference in Hname as [Hname _].
Qed.

(** The records of one name form one block of the output. *)
Lemma filter_records_same (f : factory) (name : scalar) :
  filter (λ p, p.2 = name) (records_of f name) = records_of f name.
Proof.
  unfold records_of. induction (f !!! name) as [|e es IH]; [done|].
  rewrite fmap_cons, filter_cons_True by done. by rewrite IH.
Qed.

Lemma filter_records_other (f : factory) (name n : scalar) :
  n ≠ name → filter (λ p, p.2 = name) (records_of f n) = [].
Proof.
  intros Hne. unfold records_of. induction (f !!! n) as [|e es IH]; [done|].
  rewrite fmap_cons, filter_cons_False by done. exact IH.
Qed.

Lemma filter_records_of (f : factory) (name : scalar) (order : list scalar) :
  NoDup order →
  filter (λ p, p.2 = name) (order ≫= records_of f)
  = if decide (name ∈ order) then records_of f name else [].
Proof.
  induction 1 as [|n order Hn Hnd IH]; [done|].
  rewrite bind_cons, filter_app, IH.
  destruct (decide (n = name)) as [->|Hne].
  - rewrite filter_records_same.
    rewrite (decide_True (P := name ∈ name :: order)) by left.
    rewrite decide_False by done. by rewrite app_nil_r.
  - rewrite filter_records_other by done. simpl.
    destruct (decide (name ∈ order)) as [Hin|Hin].
    + rewrite decide_True by (by right). done.
    + rewrite decide_False; [done|].
      intros [?|?]%elem_of_cons; congruence.
Qed.

Lemma elem_of_records (f : factory) (order : list scalar) (e name : scalar) :
  (e, name) ∈ order ≫= records_of f ↔ name ∈ order ∧ e ∈ f !!! name.
Proof.
  rewrite list_elem_of_bind. unfold records_of. split.
  - intros (n & Hin & Hn). apply list_elem_of_fmap in Hin as (e' & Heq & He').
    by simplify_eq.
  - intros [Hn He]. exists name. split; [|done].
    apply list_elem_of_fmap. by exists e.
Qed.

Lemma elem_of_match_non_resource_names (f : factory) t name :
  name ∈ match_non_resource_names f t ↔
  name ∈ dom f ∧ name ∉ resources t
  ∧ (name ∈ resourceGroups t ∨ name ∈ sites t ∨ name ∈ facilities t).
Proof.
  unfold match_non_resource_names, nonmatch_resource_names.
  rewrite elem_of_intersection, elem_of_difference, !elem_of_union. tauto.
Qed.

Lemma elem_of_nonmatch_all_names (f : factory) t name :
  name ∈ nonmatch_all_names f t ↔
  name ∈ dom f ∧ name ∉ resources t ∧ name ∉ sites t
  ∧ name ∉ facilities t ∧ name ∉ resourceGroups t.
Proof.
  unfold nonmatch_all_names.
  rewrite elem_of_difference, !elem_of_union. tauto.
Qed.

(** ** Recording an entry *)

Lemma record_eq (db : factory) (key entry : scalar) :
  record db key entry = <[key := db !!! key ++ [entry]]> db.
Proof.
  unfold record, append_entry, subscript.
  rewrite lookup_total_alt. destruct (db !! key) as [l|] eqn:Hl; simpl.
  - done.
  - rewrite lookup_insert_eq. simpl. by rewrite insert_insert_eq.
Qed.

Lemma lookup_total_record (db : factory) (key entry k : scalar) :
  record db key entry !!! k
  = db !!! k ++ (if decide (key = k) then [entry] else []).
Proof.
  rewrite record_eq. destruct (decide (key = k)) as [->|Hne].
  - by rewrite lookup_total_insert_eq.
  - by rewrite lookup_total_insert_ne, app_nil_r.
Qed.


(** ** Merging two indexes key by key *)

Lemma lookup_merge (d1 d2 : factory) (k : scalar) :
  merge d1 d2 !! k
  = match d1 !! k, d2 !! k with
    | Some l1, Some l2 => Some (l1 ++ l2)
    | Some l, None | None, Some l => Some l
    | None, None => None
    end.
Proof.
  unfold merge. rewrite lookup_union_with.
  by destruct (d1 !! k), (d2 !! k).
Qed.

Lemma lookup_total_merge (d1 d2 : factory) (k : scalar) :
  merge d1 d2 !!! k = d1 !!! k ++ d2 !!! k.
Proof.
  rewrite !lookup_total_alt, lookup_merge.
  destruct (d1 !! k), (d2 !! k); simpl; by rewrite ?app_nil_r.
Qed.

Lemma dom_merge (d1 d2 : factory) : dom (merge d1 d2) = dom d1 ∪ dom d2.
Proof.
  apply set_eq. intros k.
  rewrite elem_of_union, !elem_of_dom, lookup_merge.
  destruct (d1 !! k), (d2 !! k); simpl;
    rewrite <- ?not_eq_None_Some; naive_solver.
Qed.

Lemma merge_empty_r (d : factory) : merge d ∅ = d.
Proof.
  apply map_eq. intros k. rewrite lookup_merge, lookup_empty.
  by destruct (d !! k).
Qed.

Lemma merge_empty_l (d : factory) : merge ∅ d = d.
Proof.
  apply map_eq. intros k. rewrite lookup_merge, lookup_empty.
  by destruct (d !! k).
Qed.

Lemma merge_assoc (d1 d2 d3 : factory) :
  merge (merge d1 d2) d3 = merge d1 (merge d2 d3).
Proof.
  apply map_eq. intros k. rewrite !lookup_merge.
  destruct (d1 !! k), (d2 !! k), (d3 !! k); simpl; by rewrite ?app_assoc.
Qed.

Lemma record_merge (db d : factory) (key entry : scalar) :
  record (merge db d) key entry = merge db (record d key entry).
Proof.
  rewrite !record_eq. apply map_eq. intros k.
  rewrite lookup_merge. destruct (decide (key = k)) as [->|Hne].
  - rewrite !lookup_insert_eq, lookup_total_merge.
    rewrite (lookup_total_alt db). destruct (db !! k); simpl; [|done].
    by rewrite app_assoc.
  - by rewrite !lookup_insert_ne, lookup_merge by done.
Qed.

(** ** Every loader adds to the index it is given *)

Lemma load_attrs_merge (db d : factory) entry attrs :
  load_attrs (merge db d) entry attrs = merge db (load_attrs d entry attrs).
Proof.
  induction attrs as [|attr rest IH]; simpl; [done|].
  case_decide; [apply record_merge|exact IH].
Qed.

Lemma load_xml_entry_merge (db d : factory) entry :
  load_xml_entry (merge db d) entry = merge db (load_xml_entry d entry).
Proof.
  unfold load_xml_entry. case_decide; [apply load_attrs_merge|done].
Qed.

Lemma foldl_merge {A} (step : factory → A → factory) (xs : list A) :
  (∀ db d x, step (merge db d) x = merge db (step d x)) →
  ∀ db d, foldl step (merge db d) xs = merge db (foldl step d xs).
Proof.
  intros Hstep. induction xs as [|x xs IH]; intros db d; simpl; [done|].
  by rewrite Hstep, IH.
Qed.

Lemma load_xml_merge (db d : factory) root :
  load_xml (merge db d) root = merge db (load_xml d root).
Proof. apply foldl_merge, load_xml_entry_merge. Qed.

Lemma load_yaml_record_merge (db d : factory) entry_name config :
  load_yaml_record (merge db d) entry_name config
  = merge db <$> load_yaml_record d entry_name config.
Proof.
  unfold load_yaml_record.
  destruct (getitem config "attrs") as [attrs|]; simpl; [|done].
  destruct (getitem attrs "GLIDEIN_ResourceName") as [rn|]; simpl; [|done].
  destruct (hashable rn) as [key|]; simpl; [|done].
  by rewrite record_merge.
Qed.

Lemma load_yaml_records_merge (db d : factory) records :
  load_yaml_records (merge db d) records
  = merge db (load_yaml_records d records).
Proof.
  revert d. induction records as [|[entry_name config] rest IH]; intros d;
    simpl; [done|].
  rewrite load_yaml_record_merge.
  destruct (load_yaml_record d entry_name config) as [d'|]; simpl; [|done].
  apply IH.
Qed.

Lemma load_yaml_entry_merge (db d : factory) entry :
  load_yaml_entry (merge db d) entry = merge db (load_yaml_entry d entry).
Proof.
  unfold load_yaml_entry. destruct (items entry); [|done].
  apply load_yaml_records_merge.
Qed.

Lemma load_yaml_resource_merge (db d : factory) resource :
  load_yaml_resource (merge db d) resource
  = merge db <$> load_yaml_resource d resource.
Proof.
  unfold load_yaml_resource. destruct (values resource); simpl; [|done].
  f_equal. apply foldl_merge, load_yaml_entry_merge.
Qed.

Lemma for_each_merge {A} (step : factory → A → result factory) (xs : list A) :
  (∀ db d x, step (merge db d) x = merge db <$> step d x) →
  ∀ db d, for_each xs (merge db d) step = merge db <$> for_each xs d step.
Proof.
  intros Hstep. induction xs as [|x xs IH]; intros db d; simpl; [done|].
  rewrite Hstep. destruct (step d x) as [d'|]; simpl; [|done]. apply IH.
Qed.

Lemma load_yaml_merge (db d : factory) data :
  load_yaml (merge db d) data = merge db <$> load_yaml d data.
Proof.
  unfold load_yaml. destruct data as [data|]; [|done].
  destruct (values data); simpl; [|done].
  apply for_each_merge, load_yaml_resource_merge.
Qed.

Lemma get_gfactory_data_merge (db d : factory) file :
  get_gfactory_data (merge db d) file = merge db <$> get_gfactory_data d file.
Proof.
  unfold get_gfactory_data. destruct (endswith _ _).
  - destruct (xml_tree file); [|done]. simpl. by rewrite load_xml_merge.
  - apply load_yaml_merge.
Qed.

(** A document is first loaded on its own, then merged in. *)
Lemma get_gfactory_data_alone (db : factory) file :
  get_gfactory_data db file = merge db <$> get_gfactory_data ∅ file.
Proof.
  rewrite <- get_gfactory_data_merge. by rewrite merge_empty_r.
Qed.

Lemma load_all_merge (db d : factory) files :
  load_all (merge db d) files = merge db <$> load_all d files.
Proof. apply for_each_merge, get_gfactory_data_merge. Qed.

Lemma for_each_app {A S} (xs ys : list A) (acc : S) body :
  for_each (xs ++ ys) acc body
  = acc' ← for_each xs acc body; for_each ys acc' body.
Proof.
  revert acc. induction xs as [|x xs IH]; intros acc; simpl; [done|].
  destruct (body acc x); simpl; [apply IH|done].
Qed.

(** ** Indexes with the same associations *)

Lemma same_associations_refl d : same_associations d d.
Proof. by split. Qed.

Lemma same_associations_trans d1 d2 d3 :
  same_associations d1 d2 → same_associations d2 d3 → same_associations d1 d3.
Proof.
  intros [Hd1 Hp1] [Hd2 Hp2]. split; [congruence|].
  intros k. by rewrite Hp1.
Qed.

Lemma same_outcome_refl r : same_outcome r r.
Proof. destruct r; simpl; [apply same_associations_refl|done]. Qed.

Lemma same_outcome_trans r1 r2 r3 :
  same_outcome r1 r2 → same_outcome r2 r3 → same_outcome r1 r3.
Proof.
  destruct r1, r2, r3; simpl; try done. apply same_associations_trans.
Qed.

Lemma same_associations_merge d1 d2 c :
  same_associations d1 d2 → same_associations (merge d1 c) (merge d2 c).
Proof.
  intros [Hdom Hp]. split.
  - by rewrite !dom_merge, Hdom.
  - intros k. by rewrite !lookup_total_merge, Hp.
Qed.

Lemma same_associations_merge_swap d c1 c2 :
  same_associations (merge (merge d c1) c2) (merge (merge d c2) c1).
Proof.
  split.
  - rewrite !dom_merge. set_solver.
  - intros k. rewrite !lookup_total_merge, <- !app_assoc.
    apply Permutation_app_head, Permutation_app_comm.
Qed.

Lemma load_all_same_start d1 d2 files :
  same_associations d1 d2 →
  same_outcome (load_all d1 files) (load_all d2 files).
Proof.
  intros Hsame.
  rewrite <- (merge_empty_r d1), <- (merge_empty_r d2), !load_all_merge.
  destruct (load_all ∅ files) as [c|]; simpl; [|done].
  by apply same_associations_merge.
Qed.

Lemma load_all_permutation db files1 files2 :
  files1 ≡ₚ files2 →
  same_outcome (load_all db files1) (load_all db files2).
Proof.
  intros Hperm. revert db.
  induction Hperm as [|x l l' _ IH|x y l|l l' l'' _ IH1 _ IH2]; intros db.
  - apply same_outcome_refl.
  - unfold load_all in *. simpl.
    destruct (get_gfactory_data db x) as [db'|]; simpl; [apply IH|done].
  - unfold load_all. simpl.
    rewrite (get_gfactory_data_alone db y), (get_gfactory_data_alone db x).
    destruct (get_gfactory_data ∅ y) as [cy|] eqn:Hy,
             (get_gfactory_data ∅ x) as [cx|] eqn:Hx; simpl.
    + rewrite (get_gfactory_data_alone _ x), (get_gfactory_data_alone _ y).
      rewrite Hx, Hy. simpl.
      apply (load_all_same_start _ _ l), same_associations_merge_swap.
    + rewrite (get_gfactory_data_alone _ x), Hx. done.
    + rewrite (get_gfactory_data_alone _ y), Hy. done.
    + done.
  - eapply same_outcome_trans; [apply IH1|apply IH2].
Qed.

(** ** The attribute the XML loop stops at *)

Lemma load_attrs_first (db : factory) entry attrs :
  load_attrs db entry attrs
  = match List.find is_resource_name attrs with
    | Some attr =>
        record db (of_opt (get attr "value")) (of_opt (get entry "name"))
    | None => db
    end.
Proof.
  induction attrs as [|attr rest IH]; simpl; [done|].
  unfold is_resource_name at 1. case_bool_decide.
  - by rewrite decide_True.
  - by rewrite decide_False.
Qed.


(** ** What a YAML document contributes *)

Lemma load_yaml_record_key (db : factory) entry_name config :
  load_yaml_record db entry_name config
  = (λ key, record db key entry_name) <$> resource_key config.
Proof.
  unfold load_yaml_record, resource_key.
  destruct (getitem config "attrs") as [attrs|]; simpl; [|done].
  destruct (getitem attrs "GLIDEIN_ResourceName") as [rn|]; simpl; [|done].
  by destruct (hashable rn).
Qed.

Lemma record_all_app db l1 l2 :
  record_all db (l1 ++ l2) = record_all (record_all db l1) l2.
Proof. apply foldl_app. Qed.

Lemma load_yaml_records_recorded (db : factory) records :
  load_yaml_records db records = record_all db (recorded_records records).
Proof.
  revert db. induction records as [|[entry_name config] rest IH]; intros db;
    simpl; [done|].
  rewrite load_yaml_record_key.
  destruct (resource_key config) as [key|]; simpl; [apply IH|done].
Qed.

Lemma load_yaml_entry_recorded (db : factory) entry :
  load_yaml_entry db entry = record_all db (recorded_entry entry).
Proof.
  unfold load_yaml_entry.
  destruct entry; simpl; try done. apply load_yaml_records_recorded.
Qed.

Lemma foldl_load_yaml_entry (db : factory) entries :
  foldl load_yaml_entry db entries
  = record_all db (entries ≫= recorded_entry).
Proof.
  revert db. induction entries as [|entry rest IH]; intros db; [done|].
  rewrite bind_cons, record_all_app. simpl.
  by rewrite IH, load_yaml_entry_recorded.
Qed.

Lemma load_yaml_resource_mapping (db : factory) resource :
  is_mapping resource = true →
  load_yaml_resource db resource
  = Ok (record_all db (recorded_resource resource)).
Proof.
  destruct resource; try done. intros _. unfold load_yaml_resource. simpl.
  by rewrite foldl_load_yaml_entry.
Qed.

Lemma load_yaml_resource_other (db : factory) resource :
  is_mapping resource = false →
  load_yaml_resource db resource = Raise AttributeError.
Proof. by destruct resource. Qed.

Lemma for_each_load_yaml_resource (db : factory) resources :
  Forall (λ r, is_mapping r = true) resources →
  for_each resources db load_yaml_resource
  = Ok (record_all db (resources ≫= recorded_resource)).
Proof.
  intros Hall. revert db.
  induction Hall as [|r rest Hr _ IH]; intros db; [done|].
  rewrite bind_cons, record_all_app. simpl.
  rewrite load_yaml_resource_mapping by done. simpl. apply IH.
Qed.

Lemma for_each_load_yaml_resource_raise (db : factory) resources :
  ¬ Forall (λ r, is_mapping r = true) resources →
  for_each resources db load_yaml_resource = Raise AttributeError.
Proof.
  revert db. induction resources as [|r rest IH]; intros db Hnot.
  - by destruct Hnot.
  - simpl. destruct (is_mapping r) eqn:Hr.
    + rewrite load_yaml_resource_mapping by done. simpl.
      apply IH. intros Hrest. apply Hnot. by constructor.
    + by rewrite load_yaml_resource_other.
Qed.

Lemma recorded_records_cut before bad after :
  Forall (λ r, well_formed r = true) before → well_formed bad = false →
  recorded_records (before ++ bad :: after) = recorded_records before.
Proof.
  intros Hbefore Hbad.
  induction Hbefore as [|[n c] before Hr _ IH]; simpl.
  - destruct bad as [n c]. unfold well_formed in Hbad. simpl in Hbad.
    by destruct (resource_key c).
  - unfold well_formed in Hr. simpl in Hr.
    destruct (resource_key c); [by rewrite IH|done].
Qed.

Lemma recorded_records_names records :
  Forall (λ r, well_formed r = true) records →
  (recorded_records records).*2 = records.*1.
Proof.
  induction 1 as [|[n c] records Hr _ IH]; simpl; [done|].
  unfold well_formed in Hr. simpl in Hr.
  destruct (resource_key c); [|done]. simpl. by f_equal.
Qed.

(** ** Steps that return *)

Lemma st_bind_ok {S A B} (m : st S A) (k : A → st S B) s b s' :
  st_bind m k s = (Ok b, s') →
  ∃ a s1, m s = (Ok a, s1) ∧ k a s1 = (Ok b, s').
Proof.
  unfold st_bind. destruct (m s) as [[a|e] s1]; [|done].
  intros Hk. by exists a, s1.
Qed.

Lemma rmtree_ok (w w' : world) :
  rmtree w = (Ok (), w') → tmp w' = None.
Proof.
  unfold rmtree. destruct (tmp w) as [files|]; [|done].
  destruct (rmtree_files remove_readonly files) as [remaining [[]|e]]; [|done].
  by intros [= <-].
Qed.

Lemma rmtree_files_fallback (files : list repo_file) :
  Forall (λ f, rf_access f ≠ Denied) files →
  rmtree_files remove_readonly files = ([], Ok ()).
Proof.
  induction 1 as [|f files Hf _ IH]; simpl; [done|].
  unfold unlink, remove_readonly, chmod_write. simpl.
  destruct (rf_access f); simpl; by rewrite ?IH.
Qed.

Lemma rmtree_raise (w w' : world) e :
  rmtree w = (Raise e, w') → tmp w = None ∨ is_Some (tmp w').
Proof.
  unfold rmtree. destruct (tmp w) as [files|]; [|by left].
  destruct (rmtree_files remove_readonly files) as [remaining [[]|e']];
    [done|].
  intros [= _ <-]. right. by eexists.
Qed.

(** Printing leaves the temporary directory alone. *)
Lemma print_all_tmp {A} (line : A → string) (xs : list A) (w : world) :
  tmp (print_all line xs w).2 = tmp w.
Proof.
  revert w. induction xs as [|x xs IH]; intros w; [done|].
  simpl. unfold st_bind, act. simpl. by rewrite IH.
Qed.

Lemma report_tmp mismatches orphans (w : world) :
  tmp (report mismatches orphans w).2 = tmp w.
Proof.
  unfold report, st_bind, act, lift. simpl.
  destruct (print_all mismatch_line mismatches _) as [[[]|e] w1] eqn:H1;
    simpl.
  - assert (Hw1 : tmp w1 = tmp w).
    { change w1 with (Ok (), w1).2. rewrite <- H1. by rewrite print_all_tmp. }
    destruct (sorted_set orphans) as [names|e]; simpl; [|done].
    destruct (print_all orphan_line names _) as [[[]|e] w2] eqn:H2; simpl.
    + change w2 with (Ok (), w2).2. rewrite <- H2. by rewrite print_all_tmp.
    + change w2 with (@Raise unit e, w2).2. rewrite <- H2.
      by rewrite print_all_tmp.
  - change w1 with (@Raise unit e, w1).2. rewrite <- H1.
    by rewrite print_all_tmp.
Qed.

(** ** The store only grows *)

Lemma keeps_weaken h0 {A} (m : st Heap.heap A) (Q Q' : A → Prop) :
  keeps h0 m Q → (∀ a, Q a → Q' a) → keeps h0 m Q'.
Proof.
  intros Hm HQ h Hh. destruct (Hm h Hh) as [Hsub Hret].
  split; [done|]. intros a Ha. by apply HQ, Hret.
Qed.

Lemma keeps_bind h0 {A B} (m : st Heap.heap A) (k : A → st Heap.heap B)
    (Q : A → Prop) (R : B → Prop) :
  keeps h0 m Q → (∀ a, Q a → keeps h0 (k a) R) →
  keeps h0 (st_bind m k) R.
Proof.
  intros Hm Hk h Hh. destruct (Hm h Hh) as [Hsub Hret].
  unfold st_bind. destruct (m h) as [[a|e] h1]; simpl in *.
  - apply (Hk a); [by apply Hret|done].
  - by split.
Qed.

Lemma keeps_lift h0 {A} (r : result A) : keeps h0 (lift r) (λ _, True).
Proof. by intros h Hh. Qed.

Lemma keeps_load h0 l : keeps h0 (Heap.load l) (λ _, True).
Proof. intros h Hh. unfold Heap.load. by destruct (h !! l). Qed.

Lemma keeps_alloc h0 o : keeps h0 (Heap.alloc o) (λ l, h0 !! l = None).
Proof.
  intros h Hh. unfold Heap.alloc. simpl.
  assert (Hfresh : h !! fresh (dom h) = None).
  { apply not_elem_of_dom, is_fresh. }
  assert (Hfresh0 : h0 !! fresh (dom h) = None).
  { destruct (h0 !! fresh (dom h)) as [o'|] eqn:Ho; [|done].
    by rewrite (lookup_weaken _ _ _ _ Ho Hh) in Hfresh. }
  split.
  - by apply insert_subseteq_r.
  - by intros a [= <-].
Qed.

Lemma keeps_store h0 l o :
  h0 !! l = None → keeps h0 (Heap.store l o) (λ _, True).
Proof.
  intros Hl h Hh. unfold Heap.store, act. simpl.
  split; [by apply insert_subseteq_r|done].
Qed.

Lemma keeps_for_st h0 {A} (xs : list A) (body : A → st Heap.heap unit) :
  (∀ x, keeps h0 (body x) (λ _, True)) →
  keeps h0 (for_st xs body) (λ _, True).
Proof.
  intros Hbody. induction xs as [|x xs IH]; simpl.
  - apply keeps_lift.
  - eapply keeps_bind; [apply Hbody|]. intros _ _. apply IH.
Qed.

Create HintDb keeps.

Ltac keeps_step :=
  first
    [ apply keeps_lift
    | apply keeps_load
    | eapply keeps_bind; [|intros ? ?]
    | eapply keeps_weaken; [apply keeps_alloc|by intros]
    | apply keeps_for_st; intros ? ].

Lemma keeps_get_list h0 l : keeps h0 (Heap.get_list l) (λ _, True).
Proof. unfold Heap.get_list. repeat keeps_step. Qed.

Lemma keeps_get_set h0 l : keeps h0 (Heap.get_set l) (λ _, True).
Proof. unfold Heap.get_set. repeat keeps_step. Qed.

Lemma keeps_get_dict h0 l : keeps h0 (Heap.get_dict l) (λ _, True).
Proof. unfold Heap.get_dict. repeat keeps_step. Qed.

Lemma keeps_getitem h0 d k : keeps h0 (Heap.getitem d k) (λ _, True).
Proof.
  unfold Heap.getitem. eapply keeps_bind; [apply keeps_get_dict|].
  intros m _. apply keeps_lift.
Qed.

Lemma keeps_get_sets h0 ls : keeps h0 (Heap.get_sets ls) (λ _, True).
Proof.
  induction ls as [|l ls IH]; simpl; [apply keeps_lift|].
  eapply keeps_bind; [apply keeps_get_set|]. intros X _.
  eapply keeps_bind; [apply IH|]. intros Xs _. apply keeps_lift.
Qed.

Lemma keeps_set_of_keys h0 d :
  keeps h0 (Heap.set_of_keys d) (λ _, True).
Proof.
  unfold Heap.set_of_keys. eapply keeps_bind; [apply keeps_get_dict|].
  intros m _. eapply keeps_weaken; [apply keeps_alloc|done].
Qed.

Lemma keeps_difference h0 a b : keeps h0 (Heap.difference a b) (λ _, True).
Proof.
  unfold Heap.difference.
  eapply keeps_bind; [apply keeps_get_set|]. intros X _.
  eapply keeps_bind; [apply keeps_get_set|]. intros Y _.
  eapply keeps_weaken; [apply keeps_alloc|done].
Qed.

Lemma keeps_intersection h0 a b :
  keeps h0 (Heap.intersection a b) (λ _, True).
Proof.
  unfold Heap.intersection.
  eapply keeps_bind; [apply keeps_get_set|]. intros X _.
  eapply keeps_bind; [apply keeps_get_set|]. intros Y _.
  eapply keeps_weaken; [apply keeps_alloc|done].
Qed.

Lemma keeps_union h0 a bs : keeps h0 (Heap.union a bs) (λ _, True).
Proof.
  unfold Heap.union.
  eapply keeps_bind; [apply keeps_get_set|]. intros X _.
  eapply keeps_bind; [apply keeps_get_sets|]. intros Ys _.
  eapply keeps_weaken; [apply keeps_alloc|done].
Qed.

Lemma keeps_iterate h0 o s : keeps h0 (Heap.iterate o s) (λ _, True).
Proof.
  unfold Heap.iterate. eapply keeps_bind; [apply keeps_get_set|].
  intros X _. apply keeps_lift.
Qed.

Lemma keeps_append h0 l v :
  h0 !! l = None → keeps h0 (Heap.append l v) (λ _, True).
Proof.
  intros Hl. unfold Heap.append.
  eapply keeps_bind; [apply keeps_get_list|]. intros xs _.
  by apply keeps_store.
Qed.

Lemma keeps_extend h0 l src :
  h0 !! l = None → keeps h0 (Heap.extend l src) (λ _, True).
Proof.
  intros Hl. unfold Heap.extend.
  eapply keeps_bind; [apply keeps_get_list|]. intros ys _.
  eapply keeps_bind; [apply keeps_get_list|]. intros xs _.
  by apply keeps_store.
Qed.

#[local] Hint Resolve keeps_lift keeps_getitem keeps_set_of_keys
  keeps_difference keeps_intersection keeps_union keeps_iterate
  keeps_get_list keeps_append keeps_extend : keeps.

Lemma keeps_find_non_resource_matches h0 o gfactory_DB topology_DB :
  keeps h0 (Heap.find_non_resource_matches o gfactory_DB topology_DB)
    (λ _, True).
Proof.
  unfold Heap.find_non_resource_matches.
  eapply keeps_bind; [apply keeps_alloc|]. intros ret Hret.
  do 9 (eapply keeps_bind; [auto with keeps|]; intros ? _).
  eapply keeps_bind; [|intros _ _; apply keeps_lift].
  apply keeps_for_st. intros name.
  eapply keeps_bind; [auto with keeps|]. intros entries_ref _.
  eapply keeps_bind; [apply keeps_get_list|]. intros entries _.
  apply keeps_for_st. intros entry. by apply keeps_append.
Qed.

Lemma keeps_find_non_topology_matches h0 o gfactory_DB topology_DB :
  keeps h0 (Heap.find_non_topology_matches o gfactory_DB topology_DB)
    (λ _, True).
Proof.
  unfold Heap.find_non_topology_matches.
  eapply keeps_bind; [apply keeps_alloc|]. intros ret Hret.
  do 8 (eapply keeps_bind; [auto with keeps|]; intros ? _).
  eapply keeps_bind; [|intros _ _; apply keeps_lift].
  apply keeps_for_st. intros name.
  eapply keeps_bind; [auto with keeps|]. intros entries_ref _.
  by apply keeps_extend.
Qed.

Lemma holds_factory_weaken h h' l f :
  h ⊆ h' → Heap.holds_factory h l f → Heap.holds_factory h' l f.
Proof.
  intros Hsub (m & Hl & Hdom & Hlists). exists m.
  split; [by eapply lookup_weaken|]. split; [done|].
  intros k lk Hk. eapply lookup_weaken; [by apply Hlists|done].
Qed.

Lemma holds_set_weaken h h' m key X :
  h ⊆ h' → Heap.holds_set h m key X → Heap.holds_set h' m key X.
Proof.
  intros Hsub (l & Hl & HX). exists l. split; [done|].
  by eapply lookup_weaken.
Qed.

Lemma holds_topology_weaken h h' l t :
  h ⊆ h' → Heap.holds_topology h l t → Heap.holds_topology h' l t.
Proof.
  intros Hsub (m & Hl & H1 & H2 & H3 & H4). exists m.
  split; [by eapply lookup_weaken|].
  repeat split; by eapply holds_set_weaken.
Qed.

(** ** Running the reconciler on a store *)

Lemma returns_bind {A B} (m : st Heap.heap A) (k : A → st Heap.heap B) h Q :
  returns m h (λ a h', returns (k a) h' Q) → returns (st_bind m k) h Q.
Proof.
  intros (a & h' & Hm & b & h'' & Hk & HQ). exists b, h''.
  unfold st_bind. by rewrite Hm.
Qed.

Lemma returns_ok {A} (a : A) h (Q : A → Heap.heap → Prop) :
  Q a h → returns (lift (Ok a)) h Q.
Proof. intros HQ. by exists a, h. Qed.

Lemma returns_alloc o h (Q : Heap.loc → Heap.heap → Prop) :
  (∀ l h', h ⊆ h' → h !! l = None → h' !! l = Some o → Q l h') →
  returns (Heap.alloc o) h Q.
Proof.
  intros HQ. eexists _, _. split; [reflexivity|].
  assert (Hfresh : h !! fresh (dom h) = None).
  { apply not_elem_of_dom, is_fresh. }
  apply HQ; [by apply insert_subseteq|done|apply lookup_insert_eq].
Qed.

Lemma returns_load l o h (Q : Heap.obj → Heap.heap → Prop) :
  h !! l = Some o → Q o h → returns (Heap.load l) h Q.
Proof.
  intros Hl HQ. exists o, h. unfold Heap.load. by rewrite Hl.
Qed.

Lemma returns_get_list l xs h (Q : list Heap.value → Heap.heap → Prop) :
  h !! l = Some (Heap.OList xs) → Q xs h → returns (Heap.get_list l) h Q.
Proof.
  intros Hl HQ. apply returns_bind. eapply returns_load; [done|].
  by apply returns_ok.
Qed.

Lemma returns_get_set l X h (Q : gset scalar → Heap.heap → Prop) :
  h !! l = Some (Heap.OSet X) → Q X h → returns (Heap.get_set l) h Q.
Proof.
  intros Hl HQ. apply returns_bind. eapply returns_load; [done|].
  by apply returns_ok.
Qed.

Lemma returns_get_dict l m h (Q : gmap scalar Heap.loc → Heap.heap → Prop) :
  h !! l = Some (Heap.ODict m) → Q m h → returns (Heap.get_dict l) h Q.
Proof.
  intros Hl HQ. apply returns_bind. eapply returns_load; [done|].
  by apply returns_ok.
Qed.

Lemma returns_getitem d m k l h (Q : Heap.loc → Heap.heap → Prop) :
  h !! d = Some (Heap.ODict m) → m !! k = Some l → Q l h →
  returns (Heap.getitem d k) h Q.
Proof.
  intros Hd Hk HQ. apply returns_bind. eapply returns_get_dict; [done|].
  rewrite Hk. by apply returns_ok.
Qed.

Lemma returns_set_of_keys d m h (Q : Heap.loc → Heap.heap → Prop) :
  h !! d = Some (Heap.ODict m) →
  (∀ l h', h ⊆ h' → h !! l = None →
           h' !! l = Some (Heap.OSet (dom m)) → Q l h') →
  returns (Heap.set_of_keys d) h Q.
Proof.
  intros Hd HQ. apply returns_bind. eapply returns_get_dict; [done|].
  by apply returns_alloc.
Qed.

Lemma returns_difference a b X Y h (Q : Heap.loc → Heap.heap → Prop) :
  h !! a = Some (Heap.OSet X) → h !! b = Some (Heap.OSet Y) →
  (∀ l h', h ⊆ h' → h !! l = None →
           h' !! l = Some (Heap.OSet (X ∖ Y)) → Q l h') →
  returns (Heap.difference a b) h Q.
Proof.
  intros Ha Hb HQ. apply returns_bind. eapply returns_get_set; [done|].
  apply returns_bind. eapply returns_get_set; [done|].
  by apply returns_alloc.
Qed.

Lemma returns_intersection a b X Y h (Q : Heap.loc → Heap.heap → Prop) :
  h !! a = Some (Heap.OSet X) → h !! b = Some (Heap.OSet Y) →
  (∀ l h', h ⊆ h' → h !! l = None →
           h' !! l = Some (Heap.OSet (X ∩ Y)) → Q l h') →
  returns (Heap.intersection a b) h Q.
Proof.
  intros Ha Hb HQ. apply returns_bind. eapply returns_get_set; [done|].
  apply returns_bind. eapply returns_get_set; [done|].
  by apply returns_alloc.
Qed.

Lemma returns_get_sets ls Xs h (Q : list (gset scalar) → Heap.heap → Prop) :
  Forall2 (λ l X, h !! l = Some (Heap.OSet X)) ls Xs → Q Xs h →
  returns (Heap.get_sets ls) h Q.
Proof.
  intros Hall. revert Q. induction Hall as [|l X ls Xs Hl _ IH]; intros Q HQ.
  - by apply returns_ok.
  - simpl. apply returns_bind. eapply returns_get_set; [done|].
    apply returns_bind. apply IH. by apply returns_ok.
Qed.

Lemma returns_union a bs X Ys h (Q : Heap.loc → Heap.heap → Prop) :
  h !! a = Some (Heap.OSet X) →
  Forall2 (λ l Y, h !! l = Some (Heap.OSet Y)) bs Ys →
  (∀ l h', h ⊆ h' → h !! l = None →
           h' !! l = Some (Heap.OSet (X ∪ ⋃ Ys)) → Q l h') →
  returns (Heap.union a bs) h Q.
Proof.
  intros Ha Hbs HQ. apply returns_bind. eapply returns_get_set; [done|].
  apply returns_bind. eapply returns_get_sets; [done|].
  by apply returns_alloc.
Qed.

Lemma returns_iterate o s X h (Q : list scalar → Heap.heap → Prop) :
  h !! s = Some (Heap.OSet X) → Q (iter o X) h →
  returns (Heap.iterate o s) h Q.
Proof.
  intros Hs HQ. apply returns_bind. eapply returns_get_set; [done|].
  by apply returns_ok.
Qed.

Lemma returns_append l v xs h (Q : unit → Heap.heap → Prop) :
  h !! l = Some (Heap.OList xs) →
  Q () (<[l := Heap.OList (xs ++ [v])]> h) →
  returns (Heap.append l v) h Q.
Proof.
  intros Hl HQ. apply returns_bind. eapply returns_get_list; [done|].
  by eexists _, _.
Qed.

Lemma returns_extend l src xs ys h (Q : unit → Heap.heap → Prop) :
  h !! l = Some (Heap.OList xs) → h !! src = Some (Heap.OList ys) →
  Q () (<[l := Heap.OList (xs ++ ys)]> h) →
  returns (Heap.extend l src) h Q.
Proof.
  intros Hl Hsrc HQ. apply returns_bind. eapply returns_get_list; [done|].
  apply returns_bind. eapply returns_get_list; [done|].
  by eexists _, _.
Qed.

(** A loop whose passes each add a block to an accumulator. *)
Lemma returns_for_st {A B} (xs : list A) (body : A → st Heap.heap unit)
    (g : A → list B) (I : list B → Heap.heap → Prop) acc h
    (Q : unit → Heap.heap → Prop) :
  I acc h →
  (∀ x acc h, x ∈ xs → I acc h →
     returns (body x) h (λ _ h', I (acc ++ g x) h')) →
  (∀ h', I (acc ++ (xs ≫= g)) h' → Q () h') →
  returns (for_st xs body) h Q.
Proof.
  revert acc h. induction xs as [|x xs IH]; intros acc h Hacc Hbody HQ.
  - apply returns_ok, HQ. by rewrite app_nil_r.
  - simpl. apply returns_bind.
    destruct (Hbody x acc h) as (u & h' & Hx & Hacc'); [by left|done|].
    exists u, h'. split; [done|].
    apply (IH (acc ++ g x) h'); [done| |].
    + intros y acc' h'' Hy. apply Hbody. by right.
    + intros h'' HI. apply HQ. by rewrite bind_cons, app_assoc.
Qed.

Lemma bind_singletons {A B} (g : A → B) (l : list A) :
  l ≫= (λ x, [g x]) = g <$> l.
Proof.
  induction l as [|x l IH]; [done|].
  rewrite bind_cons, fmap_cons. simpl. by f_equal.
Qed.

(** The two contents of [ret] as values. *)
Lemma fmap_pair_value_records (f : factory) (name : scalar) :
  Heap.pair_value <$> records_of f name
  = (λ entry, Heap.VPair entry (Heap.VScalar name))
      <$> (Heap.VScalar <$> f !!! name).
Proof. unfold records_of. by rewrite <- !list_fmap_compose. Qed.

Ltac heap_lookup :=
  first [ eassumption
        | eapply lookup_weaken; [|eassumption]; heap_lookup ].

Lemma heap_names_all (m : gmap scalar Heap.loc) (f : factory) t :
  dom m = dom f →
  dom m ∖ (resources t ∪ ⋃ [sites t; facilities t; resourceGroups t])
  = nonmatch_all_names f t.
Proof.
  intros ->. unfold nonmatch_all_names. simpl.
  apply set_eq. intros x.
  rewrite !elem_of_difference, !elem_of_union, elem_of_empty. tauto.
Qed.

Lemma heap_names_mismatch (m : gmap scalar Heap.loc) (f : factory) t :
  dom m = dom f →
  (dom m ∖ resources t)
    ∩ (resourceGroups t ∪ ⋃ [sites t; facilities t])
  = match_non_resource_names f t.
Proof.
  intros ->. unfold match_non_resource_names, nonmatch_resource_names. simpl.
  apply set_eq. intros x.
  rewrite !elem_of_intersection, !elem_of_difference, !elem_of_union,
    elem_of_empty. tauto.
Qed.

(** On a store that holds the two indexes, the function over objects returns
    a new list object with the entries the function over values returns. *)
Lemma heap_find_non_topology_matches_refines o gfactory_DB topology_DB h f t :
  Heap.holds_factory h gfactory_DB f →
  Heap.holds_topology h topology_DB t →
  returns (Heap.find_non_topology_matches o gfactory_DB topology_DB) h
    (λ ret h',
       h !! ret = None
       ∧ ∃ out, find_non_topology_matches o f t = Ok out
                ∧ h' !! ret = Some (Heap.OList (Heap.VScalar <$> out))).
Proof.
  intros (m & Hfl & Hdom & Hlists)
    (mt & Htl & (lr & Hmr & Hlr) & (ls & Hms & Hls) & (lf & Hmf & Hlf)
        & (lg & Hmg & Hlg)).
  unfold Heap.find_non_topology_matches.
  apply returns_bind, returns_alloc. intros ret h1 Hsub1 Hret Hret1.
  apply returns_bind. eapply returns_set_of_keys; [heap_lookup|].
  intros keys h2 Hsub2 Hkeys Hkeys2.
  apply returns_bind. eapply returns_getitem; [heap_lookup|exact Hmr|].
  apply returns_bind. eapply returns_getitem; [heap_lookup|exact Hms|].
  apply returns_bind. eapply returns_getitem; [heap_lookup|exact Hmf|].
  apply returns_bind. eapply returns_getitem; [heap_lookup|exact Hmg|].
  apply returns_bind. eapply returns_union; [heap_lookup| |].
  { repeat constructor; heap_lookup. }
  intros known h3 Hsub3 Hknown Hknown3.
  apply returns_bind. eapply returns_difference; [heap_lookup|heap_lookup|].
  intros names h4 Hsub4 Hnames Hnames4.
  apply returns_bind. eapply returns_iterate; [heap_lookup|].
  rewrite (heap_names_all m f t Hdom).
  assert (Hret4 : h4 !! ret = Some (Heap.OList [])) by heap_lookup.
  assert (Hne : ∀ x o', h !! x = Some o' → ret ≠ x) by (intros x o' Hx ->; congruence).
  apply returns_bind.
  apply (returns_for_st _ _ (λ name, Heap.VScalar <$> f !!! name)
           (λ acc hc, hc = <[ret := Heap.OList acc]> h4) []).
  - symmetry. by apply insert_id.
  - intros name acc hc Hname%iter_elem_of ->.
    apply elem_of_nonmatch_all_names in Hname as [Hname _].
    rewrite <- Hdom in Hname. apply elem_of_dom in Hname as [lk Hlk].
    apply returns_bind. eapply returns_getitem; [|exact Hlk|].
    { rewrite lookup_insert_ne by eauto. heap_lookup. }
    eapply returns_extend.
    + apply lookup_insert_eq.
    + rewrite lookup_insert_ne by eauto.
      assert (Hl := Hlists name lk Hlk). heap_lookup.
    + by rewrite insert_insert_eq.
  - intros h' ->. apply returns_ok. split; [done|].
    exists (iter o (nonmatch_all_names f t) ≫= (f !!!.)).
    split; [apply find_non_topology_matches_eq|].
    rewrite lookup_insert_eq. simpl. do 2 f_equal.
    induction (iter o (nonmatch_all_names f t)) as [|n ns IH]; [done|].
    by rewrite !bind_cons, fmap_app, IH.
Qed.

Lemma heap_find_non_resource_matches_refines o gfactory_DB topology_DB h f t :
  Heap.holds_factory h gfactory_DB f →
  Heap.holds_topology h topology_DB t →
  returns (Heap.find_non_resource_matches o gfactory_DB topology_DB) h
    (λ ret h',
       h !! ret = None
       ∧ ∃ out, find_non_resource_matches o f t = Ok out
                ∧ h' !! ret = Some (Heap.OList (Heap.pair_value <$> out))).
Proof.
  intros (m & Hfl & Hdom & Hlists)
    (mt & Htl & (lr & Hmr & Hlr) & (ls & Hms & Hls) & (lf & Hmf & Hlf)
        & (lg & Hmg & Hlg)).
  unfold Heap.find_non_resource_matches.
  apply returns_bind, returns_alloc. intros ret h1 Hsub1 Hret Hret1.
  apply returns_bind. eapply returns_set_of_keys; [heap_lookup|].
  intros keys h2 Hsub2 Hkeys Hkeys2.
  apply returns_bind. eapply returns_getitem; [heap_lookup|exact Hmr|].
  apply returns_bind. eapply returns_difference; [heap_lookup|heap_lookup|].
  intros nonmatch h3 Hsub3 Hnonmatch Hnonmatch3.
  apply returns_bind. eapply returns_getitem; [heap_lookup|exact Hmg|].
  apply returns_bind. eapply returns_getitem; [heap_lookup|exact Hms|].
  apply returns_bind. eapply returns_getitem; [heap_lookup|exact Hmf|].
  apply returns_bind. eapply returns_union; [heap_lookup| |].
  { repeat constructor; heap_lookup. }
  intros others h4 Hsub4 Hothers Hothers4.
  apply returns_bind. eapply returns_intersection; [heap_lookup|heap_lookup|].
  intros names h5 Hsub5 Hnames Hnames5.
  apply returns_bind. eapply returns_iterate; [heap_lookup|].
  rewrite (heap_names_mismatch m f t Hdom).
  assert (Hret5 : h5 !! ret = Some (Heap.OList [])) by heap_lookup.
  assert (Hne : ∀ x o', h !! x = Some o' → ret ≠ x) by (intros x o' Hx ->; congruence).
  apply returns_bind.
  apply (returns_for_st _ _ (λ name, Heap.pair_value <$> records_of f name)
           (λ acc hc, hc = <[ret := Heap.OList acc]> h5) []).
  - symmetry. by apply insert_id.
  - intros name acc hc Hname%iter_elem_of ->.
    apply elem_of_match_non_resource_names in Hname as [Hname _].
    rewrite <- Hdom in Hname. apply elem_of_dom in Hname as [lk Hlk].
    apply returns_bind. eapply returns_getitem; [|exact Hlk|].
    { rewrite lookup_insert_ne by eauto. heap_lookup. }
    apply returns_bind. eapply returns_get_list.
    { rewrite lookup_insert_ne by eauto.
      assert (Hl := Hlists name lk Hlk). heap_lookup. }
    rewrite fmap_pair_value_records.
    eapply (returns_for_st _ _
              (λ entry, [Heap.VPair entry (Heap.VScalar name)])
              (λ acc' hc, hc = <[ret := Heap.OList acc']> h5) acc).
    + done.
    + intros entry acc' hc _ ->. eapply returns_append.
      * apply lookup_insert_eq.
      * by rewrite insert_insert_eq.
    + intros h' ->. by rewrite bind_singletons.
  - intros h' ->. apply returns_ok. split; [done|].
    exists (iter o (match_non_resource_names f t) ≫= records_of f).
    split; [apply find_non_resource_matches_eq|].
    rewrite lookup_insert_eq. simpl. do 2 f_equal.
    induction (iter o (match_non_resource_names f t)) as [|n ns IH]; [done|].
    by rewrite !bind_cons, fmap_app, IH.
Qed.

(** ** Properties of the reconciler *)

(** C1. [find_non_resource_matches] returns, for the names of
    (keys(factory) - resources) ∩ (resourceGroups ∪ sites ∪ facilities)
    taken in some order, the pairs (entry, name) of the entries of
    factory[name] in their order: the output is the concatenation of these
    blocks, the pairs that carry one name are exactly its block, and the name
    of every pair lies in
    keys(factory) ∩ (resourceGroups ∪ sites ∪ facilities) \ resources. *)
Theorem find_non_resource_matches_correct (o : set_order) (f : factory)
    (t : topology) :
  let names : gset scalar :=
    (dom f ∖ resources t) ∩ (resourceGroups t ∪ sites t ∪ facilities t) in
  ∃ order ret,
    find_non_resource_matches o f t = Ok ret
    ∧ order ≡ₚ elements names
    ∧ ret = order ≫= (λ name, (λ entry, (entry, name)) <$> f !!! name)
    ∧ (∀ name,
         filter (λ p, p.2 = name) ret
         = if decide (name ∈ names)
           then (λ entry, (entry, name)) <$> f !!! name else [])
    ∧ (∀ entry name,
         (entry, name) ∈ ret ↔ name ∈ names ∧ entry ∈ f !!! name)
    ∧ (∀ entry name,
         (entry, name) ∈ ret →
         name ∈ (dom f ∩ (resourceGroups t ∪ sites t ∪ facilities t))
                  ∖ resources t).
Proof.
  intros names.
  exists (iter o names), (iter o names ≫= records_of f).
  split; [apply find_non_resource_matches_eq|].
  split; [apply iter_perm|]. split; [done|].
  assert (Hmem : ∀ entry name,
    (entry, name) ∈ iter o names ≫= records_of f
    ↔ name ∈ names ∧ entry ∈ f !!! name).
  { intros entry name. by rewrite elem_of_records, iter_elem_of. }
  split; [|split; [exact Hmem|]].
  - intros name. rewrite filter_records_of by apply iter_NoDup.
    destruct (decide (name ∈ names)) as [Hin|Hin].
    + by rewrite decide_True by (by apply iter_elem_of).
    + by rewrite decide_False by (by rewrite iter_elem_of).
  - intros entry name [Hin _]%Hmem. subst names.
    revert Hin. rewrite elem_of_intersection, !elem_of_difference,
      elem_of_intersection. tauto.
Qed.

(** C2. [find_non_topology_matches] returns the concatenation of
    factory[name] over the names of keys(factory) that are in none of the
    four registry sets, taken in some order; as a set the output is the union
    of factory[name] over these names; and an entry name can occur twice in
    it. *)
Theorem find_non_topology_matches_correct :
  (∀ (o : set_order) (f : factory) (t : topology),
     let orphans : gset scalar :=
       dom f ∖ (resources t ∪ sites t ∪ facilities t ∪ resourceGroups t) in
     ∃ order ret,
       find_non_topology_matches o f t = Ok ret
       ∧ order ≡ₚ elements orphans
       ∧ ret = order ≫= (λ name, f !!! name)
       ∧ list_to_set ret
         =@{gset scalar}
         ⋃ ((λ name, list_to_set (f !!! name)) <$> elements orphans)
       ∧ (∀ entry,
            entry ∈ ret ↔
            ∃ name, name ∈ dom f ∧ name ∉ resources t ∧ name ∉ sites t
                    ∧ name ∉ facilities t ∧ name ∉ resourceGroups t
                    ∧ entry ∈ f !!! name))
  ∧ find_non_topology_matches canonical_order dup_factory empty_topology
    = Ok [SStr "EntryA"; SStr "EntryA"].
Proof.
  split; [|by vm_compute].
  intros o f t orphans.
  exists (iter o orphans), (iter o orphans ≫= (f !!!.)).
  split; [apply find_non_topology_matches_eq|].
  split; [apply iter_perm|]. split; [done|].
  assert (Hmem : ∀ entry,
    entry ∈ iter o orphans ≫= (f !!!.)
    ↔ ∃ name, name ∈ orphans ∧ entry ∈ f !!! name).
  { intros entry. rewrite list_elem_of_bind.
    split; intros (name & H1 & H2); exists name.
    - by rewrite <- (iter_elem_of o).
    - by rewrite iter_elem_of. }
  split.
  - apply set_eq. intros entry.
    rewrite elem_of_list_to_set, Hmem, elem_of_union_list. split.
    + intros (name & Hname & Hentry).
      exists (list_to_set (f !!! name)). split.
      * apply list_elem_of_fmap. exists name. split; [done|].
        by apply elem_of_elements.
      * by apply elem_of_list_to_set.
    + intros (X & (name & -> & Hname)%list_elem_of_fmap & Hentry).
      exists name. split; [by apply elem_of_elements|].
      by apply elem_of_list_to_set in Hentry.
  - intros entry. rewrite Hmem.
    split; intros (name & Hname & Hentry); exists name.
    + apply (elem_of_nonmatch_all_names f t) in Hname. tauto.
    + split; [|tauto]. apply (elem_of_nonmatch_all_names f t). tauto.
Qed.






Lemma names_disjoint (f : factory) t :
  match_non_resource_names f t ## nonmatch_all_names f t.
Proof.
  apply elem_of_disjoint. intros name.
  rewrite elem_of_match_non_resource_names, elem_of_nonmatch_all_names.
  tauto.
Qed.





(** C8. On an empty factory index both functions return the empty list,
    whatever the registry holds. *)
Theorem empty_factory_empty_lists (o : set_order) (t : topology) :
  find_non_resource_matches o ∅ t = Ok []
  ∧ find_non_topology_matches o ∅ t = Ok [].
Proof.
  rewrite find_non_resource_matches_eq, find_non_topology_matches_eq.
  assert (H1 : match_non_resource_names ∅ t = ∅).
  { apply set_eq. intros n.
    rewrite elem_of_match_non_resource_names, dom_empty_L, !elem_of_empty.
    tauto. }
  assert (H2 : nonmatch_all_names ∅ t = ∅).
  { apply set_eq. intros n.
    rewrite elem_of_nonmatch_all_names, dom_empty_L, !elem_of_empty.
    tauto. }
  by rewrite H1, H2, iter_empty.
Qed.

(** ** Properties of the loaders *)

(** C4. Aggregating factory documents does not depend on their order, up to
    the order of the entries of a key: for a sequence of documents and a
    permutation of it, either both aggregations raise, or both return an
    index, with the same keys and under every key the same entries up to
    order.  Entry lists of a key are concatenated: the index of two
    sequences one after the other holds, under every key, the entries of
    the first followed by those of the second. *)
Theorem merge_order_independent :
  (∀ files1 files2 : list source_file,
     files1 ≡ₚ files2 →
     match load_all ∅ files1, load_all ∅ files2 with
     | Ok d1, Ok d2 => dom d1 = dom d2 ∧ ∀ k, d1 !!! k ≡ₚ d2 !!! k
     | Raise _, Raise _ => True
     | _, _ => False
     end)
  ∧ (∀ (files1 files2 : list source_file) (d1 d2 : factory),
       load_all ∅ files1 = Ok d1 →
       load_all ∅ files2 = Ok d2 →
       ∃ d, load_all ∅ (files1 ++ files2) = Ok d
            ∧ dom d = dom d1 ∪ dom d2
            ∧ ∀ k, d !!! k = d1 !!! k ++ d2 !!! k).
Proof.
  split.
  - intros files1 files2 Hperm.
    exact (load_all_permutation ∅ files1 files2 Hperm).
  - intros files1 files2 d1 d2 H1 H2. exists (merge d1 d2).
    split; [|split; [apply dom_merge|apply lookup_total_merge]].
    assert (Hsnd : load_all d1 files2 = Ok (merge d1 d2)).
    { rewrite <- (merge_empty_r d1) at 1. by rewrite load_all_merge, H2. }
    unfold load_all in *. by rewrite for_each_app, H1.
Qed.

Example merge_scenario :
  load_all ∅ [file_D; file_E]
  = Ok {[SStr "R2" := [SStr "EntryD"; SStr "EntryE"]]}.
Proof. by vm_compute. Qed.

Lemma merge_order_independent_witness :
  [file_D; file_E] ≡ₚ [file_E; file_D]
  ∧ match load_all ∅ [file_D; file_E], load_all ∅ [file_E; file_D] with
    | Ok d1, Ok d2 => dom d1 = dom d2 ∧ ∀ k, d1 !!! k ≡ₚ d2 !!! k
    | Raise _, Raise _ => True
    | _, _ => False
    end.
Proof.
  split; [apply perm_swap|].
  apply (proj1 merge_order_independent). apply perm_swap.
Defined.



(** C5. The code does not skip a malformed record alone.  In an entry
    mapping with a malformed record between two well-formed ones, the first
    is recorded and the last is not: the index is neither that of the
    document without its malformed records (what skipping the malformed
    record gives), nor that of the document without the entry that has the
    malformed record. *)
Lemma malformed_record_hides_later_records :
  load_yaml ∅ (Some cut_document) = Ok {[SStr "R0" := [SStr "e0"]]}
  ∧ load_yaml ∅ (Some (drop_malformed cut_document))
    = Ok (<[SStr "R0" := [SStr "e0"]]> {[SStr "R1" := [SStr "e2"]]})
  ∧ load_yaml ∅ (Some (drop_malformed_entries cut_document)) = Ok ∅
  ∧ load_yaml ∅ (Some cut_document)
    ≠ load_yaml ∅ (Some (drop_malformed cut_document))
  ∧ load_yaml ∅ (Some cut_document)
    ≠ load_yaml ∅ (Some (drop_malformed_entries cut_document)).
Proof.
  assert (H1 : load_yaml ∅ (Some cut_document)
               = Ok {[SStr "R0" := [SStr "e0"]]}) by (by vm_compute).
  assert (H2 : load_yaml ∅ (Some (drop_malformed cut_document))
               = Ok (<[SStr "R0" := [SStr "e0"]]>
                       {[SStr "R1" := [SStr "e2"]]})) by (by vm_compute).
  assert (H3 : load_yaml ∅ (Some (drop_malformed_entries cut_document))
               = Ok ∅) by (by vm_compute).
  split; [done|]. split; [done|]. split; [done|].
  rewrite H1, H2, H3. split; intros Heq.
  - apply (f_equal (λ r : result factory,
             match r with Ok d => d !! SStr "R1" | Raise _ => None end))
      in Heq.
    by vm_compute in Heq.
  - apply (f_equal (λ r : result factory,
             match r with Ok d => d !! SStr "R0" | Raise _ => None end))
      in Heq.
    by vm_compute in Heq.
Qed.

(** The YAML loader, shape by shape: it raises when [data] is unbound, when
    the top level is not a mapping and when one of the top-level values is
    not a mapping.  Otherwise it returns: an entry that is not a mapping
    contributes nothing, and in an entry mapping the loop is left at the
    first record on which its body raises. *)
Theorem yaml_loader_lenient (db : factory) :
  load_yaml db None = Raise UnboundLocalError
  ∧ (∀ data, is_mapping data = false →
       load_yaml db (Some data) = Raise AttributeError)
  ∧ (∀ m, ¬ Forall (λ r, is_mapping r = true) m.*2 →
       load_yaml db (Some (YMap m)) = Raise AttributeError)
  ∧ (∀ m, Forall (λ r, is_mapping r = true) m.*2 →
       load_yaml db (Some (YMap m))
       = Ok (record_all db (recorded (YMap m))))
  ∧ (∀ entry, is_mapping entry = false → load_yaml_entry db entry = db)
  ∧ (∀ before bad after,
       Forall (λ r, well_formed r = true) before →
       well_formed bad = false →
       load_yaml_entry db (YMap (before ++ bad :: after))
       = load_yaml_entry db (YMap before)
       ∧ load_yaml_entry db (YMap before)
         = record_all db (recorded_records before)
       ∧ (recorded_records before).*2 = before.*1).
Proof.
  split; [done|]. split; [by intros []|]. split; [|split; [|split]].
  - intros m Hm. simpl. by apply for_each_load_yaml_resource_raise.
  - intros m Hm. simpl. by apply for_each_load_yaml_resource.
  - by intros [].
  - intros before bad after Hbefore Hbad.
    rewrite !load_yaml_entry_recorded. simpl.
    rewrite recorded_records_cut by done.
    split; [done|]. split; [done|]. by apply recorded_records_names.
Qed.

(** ** The temporary directory of a run *)

Example run_scenario :
  run canonical_order (env_of [repo_xml; repo_yml (Some (YMap []))]) start
  = (Ok (),
     {| tmp := None;
        stdout := [mismatch_header; "- EntryA: S1"; orphan_header;
                   "- EntryC"; ""] |}).
Proof. by vm_compute. Qed.

(** Against C6 as stated: a run whose YAML document cannot be parsed ends on
    the exception, and the temporary directory is still there with the clone
    in it. *)
Lemma temp_dir_left_after_failure :
  run canonical_order (env_of [repo_xml; repo_yml None]) start
  = (Raise UnboundLocalError,
     {| tmp := Some [repo_xml; repo_yml None]; stdout := [] |}).
Proof. by vm_compute. Qed.

(** C6, amended. A run that returns has removed its temporary directory, and
    the removal goes through the forced-permission fallback: files whose
    plain removal is denied for their read-only bit are removed after the
    [chmod].  A run that ends on an exception raised after the directory was
    acquired (by the clone, a loader, the report or the removal itself)
    leaves the directory in place. *)
Theorem temp_dir_removed_on_return :
  (∀ (o : set_order) (e : env) (w w' : world),
     run o e w = (Ok (), w') → tmp w' = None)
  ∧ (∀ (w : world) (files : list repo_file),
       tmp w = Some files →
       Forall (λ f, rf_access f ≠ Denied) files →
       rmtree w = (Ok (), set_tmp None w))
  ∧ (∀ (o : set_order) (e : env) (w w' : world) root topology_DB x,
       topology_page e = Ok root →
       get_topology_data empty_topology root = Ok topology_DB →
       run o e w = (Raise x, w') → is_Some (tmp w')).
Proof.
  split; [|split].
  - intros o e w w' Hrun. unfold run in Hrun.
    repeat (apply st_bind_ok in Hrun as (? & ? & _ & Hrun)).
    by apply rmtree_ok in Hrun.
  - intros w files Htmp Hfiles. unfold rmtree.
    by rewrite Htmp, rmtree_files_fallback.
  - intros o e w w' root topology_DB x Hpage Htopology.
    unfold run, st_bind, lift, act. rewrite Hpage, Htopology. simpl.
    destruct (clone_from e) as [files|]; simpl; [|by intros [= _ <-]].
    destruct (load_all _ _) as [gfactory_DB|]; simpl; [|by intros [= _ <-]].
    destruct (find_non_resource_matches _ _ _) as [mismatches|]; simpl;
      [|by intros [= _ <-]].
    destruct (find_non_topology_matches _ _ _) as [orphans|]; simpl;
      [|by intros [= _ <-]].
    pose proof (report_tmp mismatches orphans (set_tmp (Some files) w))
      as Hreport.
    destruct (report mismatches orphans _) as [[[]|e'] w1]; simpl in *.
    + intros [Hnone|Hsome]%rmtree_raise; [congruence|done].
    + intros [= _ <-]. by rewrite Hreport.
Qed.

Lemma temp_dir_removed_on_return_witness :
  (run canonical_order (env_of [repo_xml; repo_yml (Some (YMap []))])
     start).1 = Ok ()
  ∧ tmp (run canonical_order (env_of [repo_xml; repo_yml (Some (YMap []))])
           start).2 = None.
Proof.
  split; [by vm_compute|].
  apply (proj1 temp_dir_removed_on_return canonical_order
           (env_of [repo_xml; repo_yml (Some (YMap []))]) start).
  by vm_compute.
Defined.

(** ** The reconciler and its inputs *)

Example heap_scenario :
  let r := Heap.find_non_resource_matches canonical_order
             1%positive 3%positive heap_ex in
  r.1 = Ok 8%positive
  ∧ r.2 !! 8%positive
    = Some (Heap.OList
              [Heap.VPair (Heap.VScalar (SStr "EntryA"))
                 (Heap.VScalar (SStr "S1"))])
  ∧ r.2 !! 2%positive = heap_ex !! 2%positive.
Proof. by vm_compute. Qed.

Lemma holds_factory_ex : Heap.holds_factory heap_ex 1%positive factory_ex.
Proof.
  exists {[SStr "S1" := 2%positive]}. split; [done|]. split.
  - unfold factory_ex. by rewrite !dom_singleton_L.
  - intros k lk [<- <-]%lookup_singleton_Some. done.
Qed.

Lemma holds_topology_ex : Heap.holds_topology heap_ex 3%positive ex_topology.
Proof.
  eexists. split; [reflexivity|].
  repeat split; eexists; (split; [by vm_compute|done]).
Qed.

(** C9. Neither function changes its inputs: every object of the store
    before the call is the same after it, whether the call returns or
    raises; so a store that holds a FactoryIndex (its keys and, per key,
    its entry list) and a RegistryIndex (its four sets) behind the two
    arguments holds the same indexes after either call. *)
Theorem reconciler_leaves_inputs (o : set_order)
    (gfactory_DB topology_DB : Heap.loc) (h : Heap.heap) :
  let h1 := (Heap.find_non_resource_matches o gfactory_DB topology_DB h).2 in
  let h2 := (Heap.find_non_topology_matches o gfactory_DB topology_DB h).2 in
  (∀ l obj, h !! l = Some obj → h1 !! l = Some obj ∧ h2 !! l = Some obj)
  ∧ (∀ f t,
       Heap.holds_factory h gfactory_DB f →
       Heap.holds_topology h topology_DB t →
       Heap.holds_factory h1 gfactory_DB f
       ∧ Heap.holds_topology h1 topology_DB t
       ∧ Heap.holds_factory h2 gfactory_DB f
       ∧ Heap.holds_topology h2 topology_DB t).
Proof.
  intros h1 h2.
  assert (Hsub1 : h ⊆ h1).
  { by apply (keeps_find_non_resource_matches h o gfactory_DB topology_DB h). }
  assert (Hsub2 : h ⊆ h2).
  { by apply (keeps_find_non_topology_matches h o gfactory_DB topology_DB h). }
  split.
  - intros l obj Hl. split; by eapply lookup_weaken.
  - intros f t Hf Ht.
    repeat split;
      first [by eapply holds_factory_weaken|by eapply holds_topology_weaken].
Qed.

Lemma reconciler_leaves_inputs_witness :
  Heap.holds_factory heap_ex 1%positive factory_ex
  ∧ Heap.holds_topology heap_ex 3%positive ex_topology
  ∧ Heap.holds_factory
      (Heap.find_non_resource_matches canonical_order 1%positive 3%positive
         heap_ex).2 1%positive factory_ex.
Proof.
  split; [exact holds_factory_ex|]. split; [exact holds_topology_ex|].
  exact (proj1 (proj2 (reconciler_leaves_inputs canonical_order
                         1%positive 3%positive heap_ex)
                  factory_ex ex_topology holds_factory_ex holds_topology_ex)).
Defined.

(** * Further properties *)

(** ** The classes of factory names *)

(** X1. Every key of the factory index is in exactly one of three classes:
    matched (in [resources]), mismatched, or orphan: the three sets cover
    the keys and are disjoint two by two; and every entry of a key that is
    not matched is reported, as a pair in the mismatch list or as a name in
    the orphan list. *)
Theorem classification_complete (o : set_order) (f : factory) (t : topology) :
  dom f = (dom f ∩ resources t) ∪ match_non_resource_names f t
            ∪ nonmatch_all_names f t
  ∧ (dom f ∩ resources t) ## match_non_resource_names f t
  ∧ (dom f ∩ resources t) ## nonmatch_all_names f t
  ∧ match_non_resource_names f t ## nonmatch_all_names f t
  ∧ (∀ name entry,
       name ∈ dom f → name ∉ resources t → entry ∈ f !!! name →
       (∃ ret, find_non_resource_matches o f t = Ok ret ∧ (entry, name) ∈ ret)
       ∨ (∃ ret, find_non_topology_matches o f t = Ok ret ∧ entry ∈ ret)).
Proof.
  split; [|split; [|split; [|split]]].
  - apply set_eq. intros name.
    rewrite !elem_of_union, elem_of_intersection,
      elem_of_match_non_resource_names, elem_of_nonmatch_all_names.
    destruct (decide (name ∈ resources t)), (decide (name ∈ sites t)),
      (decide (name ∈ facilities t)), (decide (name ∈ resourceGroups t));
      tauto.
  - apply elem_of_disjoint. intros name.
    rewrite elem_of_intersection, elem_of_match_non_resource_names. tauto.
  - apply elem_of_disjoint. intros name.
    rewrite elem_of_intersection, elem_of_nonmatch_all_names. tauto.
  - apply names_disjoint.
  - intros name entry Hdom Hres Hentry.
    rewrite find_non_resource_matches_eq, find_non_topology_matches_eq.
    destruct (decide (name ∈ match_non_resource_names f t)) as [Hin|Hout].
    + left. eexists. split; [done|].
      apply elem_of_records. by rewrite iter_elem_of.
    + right. eexists. split; [done|].
      apply list_elem_of_bind. exists name. split; [done|].
      apply iter_elem_of, elem_of_nonmatch_all_names.
      rewrite elem_of_match_non_resource_names in Hout. tauto.
Qed.

Lemma classification_complete_witness :
  SStr "X9" ∈ dom ex_factory
  ∧ SStr "X9" ∉ resources ex_topology
  ∧ SStr "EntryC" ∈ ex_factory !!! SStr "X9"
  ∧ ((∃ ret, find_non_resource_matches canonical_order ex_factory ex_topology
             = Ok ret ∧ (SStr "EntryC", SStr "X9") ∈ ret)
     ∨ (∃ ret, find_non_topology_matches canonical_order ex_factory ex_topology
               = Ok ret ∧ SStr "EntryC" ∈ ret)).
Proof.
  assert (H1 : SStr "X9" ∈ dom ex_factory) by (by vm_compute).
  assert (H2 : SStr "X9" ∉ resources ex_topology).
  { unfold ex_topology. simpl. by intros [=]%elem_of_singleton. }
  assert (H3 : SStr "EntryC" ∈ ex_factory !!! SStr "X9").
  { vm_compute. by left. }
  repeat (split; [done|]).
  exact (proj2 (proj2 (proj2 (proj2
    (classification_complete canonical_order ex_factory ex_topology))))
    (SStr "X9") (SStr "EntryC") H1 H2 H3).
Defined.

(** X2. When every key of the factory index is a registered resource, both
    lists are empty. *)
Theorem all_matched_no_report (o : set_order) (f : factory) (t : topology) :
  dom f ⊆ resources t →
  find_non_resource_matches o f t = Ok []
  ∧ find_non_topology_matches o f t = Ok [].
Proof.
  intros Hsub.
  rewrite find_non_resource_matches_eq, find_non_topology_matches_eq.
  assert (H1 : match_non_resource_names f t = ∅).
  { apply set_eq. intros n.
    rewrite elem_of_match_non_resource_names, elem_of_empty.
    split; [|done]. intros (Hn & Hres & _). apply Hres, Hsub, Hn. }
  assert (H2 : nonmatch_all_names f t = ∅).
  { apply set_eq. intros n.
    rewrite elem_of_nonmatch_all_names, elem_of_empty.
    split; [|done]. intros (Hn & Hres & _). apply Hres, Hsub, Hn. }
  by rewrite H1, H2, iter_empty.
Qed.

Lemma all_matched_no_report_witness :
  dom factory_ex ⊆ sites ex_topology
  ∧ find_non_resource_matches canonical_order factory_ex
      {| resources := sites ex_topology; sites := ∅; facilities := ∅;
         resourceGroups := ∅ |} = Ok [].
Proof.
  assert (Hsub : dom factory_ex ⊆ sites ex_topology).
  { unfold factory_ex, ex_topology. simpl. by rewrite dom_singleton_L. }
  split; [exact Hsub|].
  exact (proj1 (all_matched_no_report canonical_order factory_ex
    {| resources := sites ex_topology; sites := ∅; facilities := ∅;
       resourceGroups := ∅ |} Hsub)).
Defined.

(** ** The sorted orphan names *)

Lemma as_str_all (l : list scalar) (ss : list string) :
  mapM as_str l = Some ss → l = SStr <$> ss.
Proof.
  intros H. symmetry. apply (mapM_fmap_Some_inv as_str SStr l ss H).
  by intros [] y [= <-].
Qed.

Lemma as_int_all (l : list scalar) (zs : list Z) :
  mapM as_int l = Some zs → l = SInt <$> zs.
Proof.
  intros H. symmetry. apply (mapM_fmap_Some_inv as_int SInt l zs H).
  by intros [] y [= <-].
Qed.

(** What [sorted_set] returns when it returns: a rearrangement of the
    distinct elements that is sorted. *)
Lemma sorted_set_distinct (xs ys : list scalar) :
  sorted_set xs = Ok ys →
  ys ≡ₚ remove_dups xs ∧ StronglySorted py_le ys.
Proof.
  unfold sorted_set.
  destruct (remove_dups xs) as [|a [|b d]] eqn:Hd.
  - intros [= <-]. split; [done|constructor].
  - intros [= <-]. split; [done|]. repeat constructor.
  - destruct (mapM as_str (a :: b :: d)) as [ss|] eqn:Hss.
    + intros [= <-]. apply as_str_all in Hss. rewrite Hss. split.
      * by rewrite merge_sort_Permutation.
      * apply (StronglySorted_fmap SStr String.le py_le); [done|].
        apply StronglySorted_merge_sort; apply _.
    + destruct (mapM as_int (a :: b :: d)) as [zs|] eqn:Hzs; [|done].
      intros [= <-]. apply as_int_all in Hzs. rewrite Hzs. split.
      * by rewrite merge_sort_Permutation.
      * apply (StronglySorted_fmap SInt Z.le py_le); [done|].
        apply StronglySorted_merge_sort; apply _.
Qed.

(** X3. When [sorted(set(xs))] returns, the list it returns has every
    element of [xs] exactly once and is sorted by Python's order on strings,
    respectively on integers. *)
Theorem sorted_set_correct (xs ys : list scalar) :
  sorted_set xs = Ok ys →
  NoDup ys ∧ (∀ x, x ∈ ys ↔ x ∈ xs) ∧ StronglySorted py_le ys.
Proof.
  intros [Hperm Hsorted]%sorted_set_distinct. split; [|split; [|done]].
  - rewrite Hperm. apply NoDup_remove_dups.
  - intros x. rewrite Hperm. apply elem_of_remove_dups.
Qed.

Lemma sorted_set_correct_witness :
  sorted_set [SStr "b"; SStr "a"; SStr "b"] = Ok [SStr "a"; SStr "b"]
  ∧ NoDup [SStr "a"; SStr "b"].
Proof.
  assert (H : sorted_set [SStr "b"; SStr "a"; SStr "b"]
              = Ok [SStr "a"; SStr "b"]) by (by vm_compute).
  split; [exact H|].
  exact (proj1 (sorted_set_correct _ _ H)).
Defined.

Lemma comparable_as_str (l : list scalar) (x y : scalar) (ss : list string) :
  mapM as_str l = Some ss → x ∈ l → y ∈ l → comparable x y = true.
Proof.
  intros ->%as_str_all (a & -> & _)%list_elem_of_fmap
    (b & -> & _)%list_elem_of_fmap. done.
Qed.

Lemma comparable_as_int (l : list scalar) (x y : scalar) (zs : list Z) :
  mapM as_int l = Some zs → x ∈ l → y ∈ l → comparable x y = true.
Proof.
  intros ->%as_int_all (a & -> & _)%list_elem_of_fmap
    (b & -> & _)%list_elem_of_fmap. done.
Qed.

Lemma sorted_set_incomparable (xs : list scalar) (x y : scalar) :
  x ∈ xs → y ∈ xs → x ≠ y → comparable x y = false →
  sorted_set xs = Raise TypeError.
Proof.
  intros Hx Hy Hne Hcmp. unfold sorted_set.
  apply elem_of_remove_dups in Hx, Hy.
  destruct (remove_dups xs) as [|a [|b d]] eqn:Hd.
  - by apply elem_of_nil in Hx.
  - apply list_elem_of_singleton in Hx, Hy. congruence.
  - destruct (mapM as_str (a :: b :: d)) as [ss|] eqn:Hss.
    { by rewrite (comparable_as_str _ x y ss Hss) in Hcmp. }
    destruct (mapM as_int (a :: b :: d)) as [zs|] eqn:Hzs; [|done].
    by rewrite (comparable_as_int _ x y zs Hzs) in Hcmp.
Qed.

(** X4. [sorted(set(xs))] raises [TypeError] exactly when [xs] has two
    distinct elements that Python does not compare: a [None] beside anything
    else, or a string beside an integer. *)
Theorem sorted_set_raises (xs : list scalar) :
  sorted_set xs = Raise TypeError
  ↔ ∃ x y, x ∈ xs ∧ y ∈ xs ∧ x ≠ y ∧ comparable x y = false.
Proof.
  split.
  - unfold sorted_set.
    destruct (remove_dups xs) as [|a [|b d]] eqn:Hd; [done|done|].
    assert (Hnd : NoDup (a :: b :: d)).
    { rewrite <- Hd. apply NoDup_remove_dups. }
    assert (Hin : ∀ x, x ∈ a :: b :: d → x ∈ xs).
    { intros x. rewrite <- Hd. apply elem_of_remove_dups. }
    destruct (mapM as_str (a :: b :: d)) as [ss|] eqn:Hss; [done|].
    destruct (mapM as_int (a :: b :: d)) as [zs|] eqn:Hzs; [done|].
    intros _.
    apply mapM_None, Exists_exists in Hss as (u & Hu & Hustr).
    apply mapM_None, Exists_exists in Hzs as (v & Hv & Hvint).
    destruct (decide (u = v)) as [->|Huv].
    + (* an element that is neither a string nor an integer *)
      destruct v; try done.
      assert (∃ w, w ∈ a :: b :: d ∧ w ≠ SNone) as (w & Hw & Hne).
      { apply NoDup_cons in Hnd as [Hab _].
        destruct (decide (a = SNone)) as [->|Ha].
        - exists b. split; [by right; left|].
          intros ->. apply Hab. by left.
        - exists a. split; [by left|done]. }
      exists SNone, w.
      split; [auto|]. split; [auto|]. split; [by intros <-|done].
    + exists u, v.
      split; [auto|]. split; [auto|]. split; [done|].
      by destruct u, v.
  - intros (x & y & Hx & Hy & Hne & Hcmp).
    by apply (sorted_set_incomparable xs x y).
Qed.

Lemma sorted_set_raises_witness :
  sorted_set [SStr "EntryC"; SNone] = Raise TypeError.
Proof.
  apply (proj2 (sorted_set_raises [SStr "EntryC"; SNone])).
  exists (SStr "EntryC"), SNone.
  split; [by left|]. split; [by right; left|]. by split.
Defined.

(** ** The order of a set does not show *)






(** ** Recording and loading *)

(** X6. Recording an entry under a key appends it to the list of that key,
    creating the list when the key is new, and leaves the other keys as they
    are. *)
Theorem record_lookup (db : factory) (key entry : scalar) :
  record db key entry !! key = Some (default [] (db !! key) ++ [entry])
  ∧ (∀ k, k ≠ key → record db key entry !! k = db !! k)
  ∧ dom (record db key entry) = {[key]} ∪ dom db.
Proof.
  rewrite record_eq. split; [|split].
  - by rewrite lookup_insert_eq, lookup_total_alt.
  - intros k Hk. by rewrite lookup_insert_ne.
  - apply dom_insert_L.
Qed.

Lemma record_lookup_witness :
  record ∅ (SStr "R1") (SStr "E1") !! SStr "R2" = (∅ : factory) !! SStr "R2".
Proof.
  apply (proj1 (proj2 (record_lookup ∅ (SStr "R1") (SStr "E1")))).
  discriminate.
Defined.

Lemma entries_for_app key l1 l2 :
  entries_for key (l1 ++ l2) = entries_for key l1 ++ entries_for key l2.
Proof. unfold entries_for. by rewrite filter_app, fmap_app. Qed.

Lemma lookup_total_record_all (db : factory) (l : list (scalar * scalar)) key :
  record_all db l !!! key = db !!! key ++ entries_for key l.
Proof.
  revert db. induction l as [|[k e] l IH]; intros db.
  - by rewrite app_nil_r.
  - change (record_all db ((k, e) :: l)) with (record_all (record db k e) l).
    rewrite IH, lookup_total_record. unfold entries_for.
    destruct (decide (k = key)) as [->|Hne].
    + rewrite filter_cons_True by done. by rewrite <- app_assoc.
    + rewrite filter_cons_False by done. by rewrite app_nil_r.
Qed.

Lemma load_xml_entry_association (db : factory) (entry : element) :
  load_xml_entry db entry
  = record_all db (option_list (xml_association entry)).
Proof.
  unfold load_xml_entry, xml_association. case_decide; [|done].
  rewrite load_attrs_first. by destruct (List.find _ _).
Qed.

Lemma load_xml_associations (db : factory) (entries : list element) :
  foldl load_xml_entry db entries
  = record_all db (omap xml_association entries).
Proof.
  revert db. induction entries as [|entry entries IH]; intros db; [done|].
  simpl. rewrite IH, load_xml_entry_association.
  destruct (xml_association entry) as [[k e]|]; done.
Qed.

(** X7. After an XML document is loaded, the list of a key holds what it
    held before, followed by the names of the entries of the document that
    are enabled and whose first attr named GLIDEIN_ResourceName has the key
    for value, in document order. *)
Theorem load_xml_document_order (db : factory) (root : element) (key : scalar) :
  load_xml db root !!! key
  = db !!! key
    ++ entries_for key
         (omap xml_association (findall ["entries"; "entry"] root)).
Proof.
  unfold load_xml. by rewrite load_xml_associations, lookup_total_record_all.
Qed.

(** X8. A loader keeps what the index holds: after a document is loaded, or a
    sequence of documents, every key is still there and its old list is a
    prefix of its new one. *)
Theorem loaders_only_append (db db' : factory) :
  (∀ file,
     get_gfactory_data db file = Ok db' →
     dom db ⊆ dom db' ∧ ∀ k, db !!! k `prefix_of` db' !!! k)
  ∧ (∀ files,
       load_all db files = Ok db' →
       dom db ⊆ dom db' ∧ ∀ k, db !!! k `prefix_of` db' !!! k).
Proof.
  assert (Hmerge : ∀ c, dom db ⊆ dom (merge db c)
                        ∧ ∀ k, db !!! k `prefix_of` merge db c !!! k).
  { intros c. split.
    - rewrite dom_merge. apply union_subseteq_l.
    - intros k. rewrite lookup_total_merge. by apply prefix_app_r. }
  split.
  - intros file. rewrite get_gfactory_data_alone.
    destruct (get_gfactory_data ∅ file) as [c|]; [|done].
    intros [= <-]. apply Hmerge.
  - intros files. rewrite <- (merge_empty_r db) at 1. rewrite load_all_merge.
    destruct (load_all ∅ files) as [c|]; [|done].
    intros [= <-]. apply Hmerge.
Qed.

Lemma loaders_only_append_witness :
  load_all factory_ex [file_D; file_E]
  = Ok (<[SStr "R2" := [SStr "EntryD"; SStr "EntryE"]]> factory_ex)
  ∧ dom factory_ex
    ⊆ dom (<[SStr "R2" := [SStr "EntryD"; SStr "EntryE"]]> factory_ex).
Proof.
  assert (H : load_all factory_ex [file_D; file_E]
              = Ok (<[SStr "R2" := [SStr "EntryD"; SStr "EntryE"]]> factory_ex))
    by (by vm_compute).
  split; [exact H|].
  exact (proj1 (proj2 (loaders_only_append factory_ex _) [file_D; file_E] H)).
Defined.

Lemma record_all_snoc db l key entry :
  record_all db (l ++ [(key, entry)]) = record (record_all db l) key entry.
Proof. unfold record_all. by rewrite foldl_app. Qed.

Lemma get_gfactory_data_records (db db' : factory) file :
  get_gfactory_data db file = Ok db' → ∃ l, db' = record_all db l.
Proof.
  unfold get_gfactory_data. destruct (endswith _ _).
  - destruct (xml_tree file) as [root|]; [|done]. intros [= <-].
    unfold load_xml. rewrite load_xml_associations. by eexists.
  - destruct (yaml_data file) as [[s|items|m]|]; try done. simpl.
    destruct (decide (Forall (λ r, is_mapping r = true) m.*2)) as [Hm|Hm].
    + rewrite for_each_load_yaml_resource by done. intros [= <-]. by eexists.
    + by rewrite for_each_load_yaml_resource_raise.
Qed.

Lemma no_empty_list_record db key entry :
  no_empty_list db → no_empty_list (record db key entry).
Proof.
  intros Hdb k l. rewrite record_eq.
  destruct (decide (key = k)) as [->|Hne].
  - rewrite lookup_insert_eq. intros [= <-]. by destruct (db !!! k).
  - rewrite lookup_insert_ne by done. apply Hdb.
Qed.

Lemma no_empty_list_record_all db l :
  no_empty_list db → no_empty_list (record_all db l).
Proof.
  intros Hdb. induction l as [|[k e] l IH] using rev_ind; [done|].
  rewrite record_all_snoc. by apply no_empty_list_record.
Qed.

Lemma no_empty_list_load_all db db' files :
  no_empty_list db → load_all db files = Ok db' → no_empty_list db'.
Proof.
  revert db. unfold load_all.
  induction files as [|file files IH]; intros db Hdb; simpl.
  - by intros [= <-].
  - destruct (get_gfactory_data db file) as [db1|] eqn:Hfile; [|done]. simpl.
    apply IH. apply get_gfactory_data_records in Hfile as [l ->].
    by apply no_empty_list_record_all.
Qed.

(** X9. The loaders never leave a key with an empty list: an index without
    empty lists has none after loading documents, so the index a run
    aggregates from nothing has none, and every name it holds that matches a
    registry set other than [resources] shows in the mismatch list with at
    least one entry. *)
Theorem loaded_lists_nonempty :
  (∀ (db db' : factory) files,
     no_empty_list db → load_all db files = Ok db' → no_empty_list db')
  ∧ (∀ (f : factory) files (o : set_order) (t : topology) name,
       load_all ∅ files = Ok f →
       name ∈ match_non_resource_names f t →
       ∃ ret entry,
         find_non_resource_matches o f t = Ok ret ∧ (entry, name) ∈ ret).
Proof.
  split; [apply no_empty_list_load_all|].
  intros f files o t name Hload Hname.
  assert (Hf : no_empty_list f).
  { eapply no_empty_list_load_all; [|exact Hload]. by intros k l. }
  assert (Hdom : name ∈ dom f).
  { by apply elem_of_match_non_resource_names in Hname as [? _]. }
  apply elem_of_dom in Hdom as [l Hl].
  destruct l as [|entry l]; [by destruct (Hf name [] Hl)|].
  rewrite find_non_resource_matches_eq. eexists _, entry. split; [done|].
  apply elem_of_records. split; [by apply iter_elem_of|].
  rewrite lookup_total_alt, Hl. by left.
Qed.

Lemma loaded_lists_nonempty_witness :
  load_all ∅ [file_D; file_E]
  = Ok {[SStr "R2" := [SStr "EntryD"; SStr "EntryE"]]}
  ∧ no_empty_list {[SStr "R2" := [SStr "EntryD"; SStr "EntryE"]]}.
Proof.
  assert (H : load_all ∅ [file_D; file_E]
              = Ok {[SStr "R2" := [SStr "EntryD"; SStr "EntryE"]]})
    by (by vm_compute).
  split; [exact H|].
  refine (proj1 loaded_lists_nonempty ∅ _ [file_D; file_E] _ H).
  by intros k l.
Defined.

Lemma yaml_association_key (r : scalar * yaml) :
  yaml_association r
  = match resource_key r.2 with
    | Ok key => Some (key, r.1)
    | Raise _ => None
    end.
Proof.
  unfold yaml_association, resource_key.
  destruct (getitem r.2 "attrs") as [attrs|]; simpl; [|done].
  destruct (getitem attrs "GLIDEIN_ResourceName") as [[]|]; done.
Qed.

Lemma names_a_container_none (r : scalar * yaml) :
  names_a_container r → yaml_association r = None.
Proof.
  intros (attrs & v & Hattrs & Hv & Hscalar).
  unfold yaml_association. rewrite Hattrs, Hv.
  destruct v as [key| |]; [by destruct (Hscalar key)|done..].
Qed.

Lemma recorded_records_all (records : list (scalar * yaml)) :
  Forall (λ r, is_Some (yaml_association r)) records →
  recorded_records records = omap yaml_association records.
Proof.
  induction 1 as [|[n c] records Hr _ IH]; [done|].
  rewrite yaml_association_key in Hr. simpl.
  rewrite yaml_association_key. simpl in *.
  destruct (resource_key c); [by rewrite IH|by destruct Hr].
Qed.

Lemma recorded_records_none (records : list (scalar * yaml)) :
  Forall (λ r, yaml_association r = None) records →
  recorded_records records = [] ∧ omap yaml_association records = [].
Proof.
  induction 1 as [|[n c] records Hr _ [_ IH]]; [done|].
  simpl. rewrite Hr. rewrite yaml_association_key in Hr. simpl in Hr.
  by destruct (resource_key c).
Qed.

Lemma omap_bind {A B C} (h : B → option C) (g : A → list B) (l : list A) :
  omap h (l ≫= g) = l ≫= λ x, omap h (g x).
Proof.
  induction l as [|x l IH]; [done|].
  by rewrite !bind_cons, omap_app, IH.
Qed.

(** On the records of a document the loop body goes through on, or on none
    of which it does, what is recorded is what [yaml_association] gives. *)
Lemma recorded_associations (data : yaml) :
  Forall (λ r, is_Some (yaml_association r)) (yaml_records data)
  ∨ Forall (λ r, yaml_association r = None) (yaml_records data) →
  recorded data = omap yaml_association (yaml_records data).
Proof.
  intros Hall. unfold recorded, recorded_resource, yaml_records.
  rewrite omap_bind. apply Forall_bind_ext, Forall_forall.
  intros resource Hresource.
  rewrite omap_bind. apply Forall_bind_ext, Forall_forall.
  intros entry Hentry.
  assert (Hrecords :
    Forall (λ r, is_Some (yaml_association r)) (mapping_items entry)
    ∨ Forall (λ r, yaml_association r = None) (mapping_items entry)).
  { unfold yaml_records in Hall.
    destruct Hall as [Hall|Hall]; [left|right];
      rewrite Forall_bind, Forall_forall in Hall;
      specialize (Hall resource Hresource); simpl in Hall;
      rewrite Forall_bind, Forall_forall in Hall;
      exact (Hall entry Hentry). }
  destruct entry as [x|items|records]; [done|done|]. simpl in *.
  destruct Hrecords as [Hsome|Hnone].
  - by apply recorded_records_all.
  - destruct (recorded_records_none records Hnone) as [-> ->]. done.
Qed.

(** X10. A YAML document that is a mapping of mappings, and in which every
    record has a scalar GLIDEIN_ResourceName in its attrs, loads, and the
    list of a key then holds what it held before followed by the entry
    names of the records with that key, in document order.  A document in
    which the GLIDEIN_ResourceName of every record is a mapping (such as a
    [{value: ...}] object) or a sequence loads as well, and leaves the index
    as it was: no such record is recorded. *)
Theorem load_yaml_document_order (db : factory) (m : list (scalar * yaml)) :
  Forall (λ resource, is_mapping resource = true) m.*2 →
  (Forall (λ r, is_Some (yaml_association r)) (yaml_records (YMap m)) →
   ∃ db', load_yaml db (Some (YMap m)) = Ok db'
          ∧ ∀ key,
              db' !!! key
              = db !!! key
                ++ entries_for key
                     (omap yaml_association (yaml_records (YMap m))))
  ∧ (Forall names_a_container (yaml_records (YMap m)) →
     load_yaml db (Some (YMap m)) = Ok db).
Proof.
  intros Hm.
  assert (Hload : load_yaml db (Some (YMap m))
                  = Ok (record_all db (recorded (YMap m)))).
  { simpl. by apply for_each_load_yaml_resource. }
  split.
  - intros Hall. eexists. split; [exact Hload|]. intros key.
    rewrite lookup_total_record_all, recorded_associations; [done|by left].
  - intros Hall. rewrite Hload, recorded_associations.
    + assert (Hnone : omap yaml_association (yaml_records (YMap m)) = []);
        [|by rewrite Hnone].
      induction Hall as [|r rs Hr _ IH]; [done|].
      simpl. by rewrite (names_a_container_none r Hr).
    + right. eapply Forall_impl; [exact Hall|].
      apply names_a_container_none.
Qed.

Lemma load_yaml_document_order_witness :
  load_yaml ∅
    (Some (autoconf_of
             [(SStr "e1",
               config_of (YMap [(SStr "value", YScalar (SStr "R1"))]))]))
  = Ok ∅.
Proof.
  refine (proj2 (load_yaml_document_order ∅
    [(SStr "SITE",
      YMap [(SStr "ce.example.org",
             YMap [(SStr "e1",
                    config_of
                      (YMap [(SStr "value", YScalar (SStr "R1"))]))])])] _) _).
  - repeat constructor.
  - repeat constructor.
    exists (YMap [(SStr "GLIDEIN_ResourceName",
                   YMap [(SStr "value", YScalar (SStr "R1"))])]),
      (YMap [(SStr "value", YScalar (SStr "R1"))]).
    split; [reflexivity|]. split; [reflexivity|]. discriminate.
Defined.

(** ** The topology loader *)

Lemma extend_topology_nil t : extend_topology t [] [] [] [] = t.
Proof.
  destruct t. unfold extend_topology. simpl.
  by rewrite !(right_id_L ∅ (∪)).
Qed.

Lemma extend_topology_twice t rg fa si re rg' fa' si' re' :
  extend_topology (extend_topology t rg fa si re) rg' fa' si' re'
  = extend_topology t (rg ++ rg') (fa ++ fa') (si ++ si') (re ++ re').
Proof.
  unfold extend_topology. simpl.
  by rewrite !list_to_set_app_L, !(assoc_L (∪)).
Qed.

Lemma add_resourceGroup_extend x t :
  add_resourceGroup x t = extend_topology t [x] [] [] [].
Proof.
  unfold add_resourceGroup, extend_topology. simpl.
  rewrite !(right_id_L ∅ (∪)). f_equal. apply (comm_L (∪)).
Qed.

Lemma add_facility_extend x t :
  add_facility x t = extend_topology t [] [x] [] [].
Proof.
  unfold add_facility, extend_topology. simpl.
  rewrite !(right_id_L ∅ (∪)). f_equal. apply (comm_L (∪)).
Qed.

Lemma add_site_extend x t : add_site x t = extend_topology t [] [] [x] [].
Proof.
  unfold add_site, extend_topology. simpl.
  rewrite !(right_id_L ∅ (∪)). f_equal. apply (comm_L (∪)).
Qed.

Lemma add_resource_extend x t :
  add_resource x t = extend_topology t [] [] [] [x].
Proof.
  unfold add_resource, extend_topology. simpl.
  rewrite !(right_id_L ∅ (∪)). f_equal. apply (comm_L (∪)).
Qed.

(** A loop that adds the names of a list of elements to one set. *)
Lemma add_names_extend (add : scalar → topology → topology)
    (inject : list scalar → topology → topology) t es db :
  (∀ d, inject [] d = d) →
  (∀ x l d, inject (x :: l) d = inject l (add x d)) →
  add_names add t es db
  = if forallb (has_child t) es then Ok (inject (texts t es) db)
    else Raise AttributeError.
Proof.
  intros Hnil Hcons. unfold add_names, texts. revert db.
  induction es as [|e es IH]; intros db; simpl.
  - by rewrite Hnil.
  - unfold find_text, has_child. destruct (find t e) as [c|]; simpl; [|done].
    by rewrite IH, Hcons.
Qed.

Lemma add_facilities db es :
  add_names add_facility "Name" es db
  = if forallb (has_child "Name") es
    then Ok (extend_topology db [] (texts "Name" es) [] [])
    else Raise AttributeError.
Proof.
  apply (add_names_extend add_facility
           (λ l d, extend_topology d [] l [] [])).
  - apply extend_topology_nil.
  - intros x l d. by rewrite add_facility_extend, extend_topology_twice.
Qed.

Lemma add_sites db es :
  add_names add_site "Name" es db
  = if forallb (has_child "Name") es
    then Ok (extend_topology db [] [] (texts "Name" es) [])
    else Raise AttributeError.
Proof.
  apply (add_names_extend add_site (λ l d, extend_topology d [] [] l [])).
  - apply extend_topology_nil.
  - intros x l d. by rewrite add_site_extend, extend_topology_twice.
Qed.

Lemma add_resources db es :
  add_names add_resource "Name" es db
  = if forallb (has_child "Name") es
    then Ok (extend_topology db [] [] [] (texts "Name" es))
    else Raise AttributeError.
Proof.
  apply (add_names_extend add_resource (λ l d, extend_topology d [] [] [] l)).
  - apply extend_topology_nil.
  - intros x l d. by rewrite add_resource_extend, extend_topology_twice.
Qed.

Lemma load_resource_group_extend db child :
  load_resource_group db child
  = if well_named child then
      Ok (extend_topology db
            (texts "GroupName" [child])
            (texts "Name" (findall ["Facility"] child))
            (texts "Name" (findall ["Site"] child))
            (texts "Name" (findall ["Resources"; "Resource"] child)))
    else Raise AttributeError.
Proof.
  unfold load_resource_group, well_named.
  assert (Hname : texts "GroupName" [child]
                  = match find "GroupName" child with
                    | Some c => [of_opt (text c)]
                    | None => []
                    end).
  { unfold texts. simpl. by destruct (find "GroupName" child). }
  rewrite Hname. unfold find_text, has_child at 1.
  generalize (findall ["Facility"] child) (findall ["Site"] child)
    (findall ["Resources"; "Resource"] child).
  intros fs ss rs.
  destruct (find "GroupName" child) as [c|]; simpl; [|done].
  rewrite add_facilities.
  destruct (forallb (has_child "Name") fs); simpl; [|done].
  rewrite add_sites.
  destruct (forallb (has_child "Name") ss); simpl; [|done].
  rewrite add_resources.
  destruct (forallb (has_child "Name") rs); simpl; [|done].
  rewrite add_resourceGroup_extend, !extend_topology_twice. simpl.
  by rewrite ?app_nil_r.
Qed.

Lemma texts_app t es1 es2 : texts t (es1 ++ es2) = texts t es1 ++ texts t es2.
Proof. apply omap_app. Qed.

Lemma texts_bind t (es : list element) (f : element → list element) :
  texts t (es ≫= f) = es ≫= (λ e, texts t (f e)).
Proof.
  induction es as [|e es IH]; [done|].
  by rewrite !bind_cons, texts_app, IH.
Qed.

Lemma load_resource_groups db groups :
  for_each groups db load_resource_group
  = if forallb well_named groups then
      Ok (extend_topology db
            (texts "GroupName" groups)
            (texts "Name" (groups ≫= findall ["Facility"]))
            (texts "Name" (groups ≫= findall ["Site"]))
            (texts "Name" (groups ≫= findall ["Resources"; "Resource"])))
    else Raise AttributeError.
Proof.
  revert db. induction groups as [|g groups IH]; intros db.
  - simpl. by rewrite extend_topology_nil.
  - change (texts "GroupName" (g :: groups))
      with (texts "GroupName" ([g] ++ groups)).
    rewrite !bind_cons, !texts_app, <- extend_topology_twice.
    pose proof (load_resource_group_extend db g) as Hg.
    change (for_each (g :: groups) db load_resource_group)
      with (load_resource_group db g
              ≫= λ db1, for_each groups db1 load_resource_group).
    change (forallb well_named (g :: groups))
      with (well_named g && forallb well_named groups).
    rewrite Hg. destruct (well_named g); [|done].
    exact (IH _).
Qed.

Lemma findall_cons t path e :
  findall (t :: path) e = findall [t] e ≫= findall path.
Proof.
  simpl. induction (filter _ (children e)) as [|c cs IH]; [done|].
  rewrite !bind_cons. simpl. by rewrite IH.
Qed.

(** X11. When the topology loader returns, each of the four sets holds what
    it held before and the names read from the document: the GroupName of
    the ResourceGroup elements of the root, and the Name of their Facility,
    Site and Resources/Resource elements. *)
Theorem get_topology_data_names (db db' : topology) (root : element) :
  get_topology_data db root = Ok db' →
  resourceGroups db'
  = resourceGroups db
    ∪ list_to_set (texts "GroupName" (findall ["ResourceGroup"] root))
  ∧ facilities db'
    = facilities db
      ∪ list_to_set
          (texts "Name" (findall ["ResourceGroup"; "Facility"] root))
  ∧ sites db'
    = sites db
      ∪ list_to_set (texts "Name" (findall ["ResourceGroup"; "Site"] root))
  ∧ resources db'
    = resources db
      ∪ list_to_set
          (texts "Name"
             (findall ["ResourceGroup"; "Resources"; "Resource"] root)).
Proof.
  unfold get_topology_data. rewrite load_resource_groups.
  destruct (forallb _ _); [|done]. intros [= <-].
  rewrite (findall_cons "ResourceGroup" ["Facility"]),
    (findall_cons "ResourceGroup" ["Site"]),
    (findall_cons "ResourceGroup" ["Resources"; "Resource"]).
  done.
Qed.

Lemma get_topology_data_names_witness :
  get_topology_data empty_topology topology_el
  = Ok {| resources := {[SStr "R1"]}; sites := {[SStr "S1"]};
          facilities := {[SStr "F1"]}; resourceGroups := {[SStr "G1"]} |}
  ∧ resourceGroups
      {| resources := {[SStr "R1"]}; sites := {[SStr "S1"]};
         facilities := {[SStr "F1"]}; resourceGroups := {[SStr "G1"]} |}
    = resourceGroups empty_topology
      ∪ list_to_set (texts "GroupName" (findall ["ResourceGroup"] topology_el)).
Proof.
  assert (H : get_topology_data empty_topology topology_el
    = Ok {| resources := {[SStr "R1"]}; sites := {[SStr "S1"]};
            facilities := {[SStr "F1"]}; resourceGroups := {[SStr "G1"]} |})
    by (by vm_compute).
  split; [exact H|].
  exact (proj1 (get_topology_data_names _ _ _ H)).
Defined.

(** X12. The topology loader returns exactly when every ResourceGroup element
    of the root has a GroupName and every Facility, Site and Resource element
    under it has a Name; otherwise it raises [AttributeError], on the
    [.text] of the missing child. *)
Theorem get_topology_data_raises (db : topology) (root : element) :
  (is_ok (get_topology_data db root) = true
   ↔ Forall (λ child, well_named child = true)
       (findall ["ResourceGroup"] root))
  ∧ (is_ok (get_topology_data db root) = false →
     get_topology_data db root = Raise AttributeError).
Proof.
  unfold get_topology_data. rewrite load_resource_groups.
  destruct (forallb well_named _) eqn:Hall; simpl.
  - split; [|done]. split; [|done]. intros _.
    apply Forall_forall. intros child Hchild.
    rewrite forallb_forall in Hall. by apply Hall, list_elem_of_In.
  - split; [|done]. split; [done|]. intros HForall.
    assert (forallb well_named (findall ["ResourceGroup"] root) = true);
      [|congruence].
    apply forallb_forall. intros child Hchild%list_elem_of_In.
    by apply (proj1 (Forall_forall _ _) HForall).
Qed.

Lemma get_topology_data_raises_witness :
  get_topology_data empty_topology
    (Element "ResourceSummary" [] None [Element "ResourceGroup" [] None []])
  = Raise AttributeError.
Proof.
  apply (proj2 (get_topology_data_raises empty_topology
    (Element "ResourceSummary" [] None [Element "ResourceGroup" [] None []]))).
  reflexivity.
Defined.

(** ** Removing the temporary directory *)

Lemma chmod_write_denied (f : repo_file) :
  rf_access f = Denied → chmod_write f = f.
Proof. destruct f as [d n a x y]. simpl. by intros ->. Qed.

(** X13. The removal of the files returns exactly when no file is denied
    even after the [chmod]; the first such file ends it with
    [PermissionError]: the files before it are gone, the file and those
    after it are left. *)
Theorem rmtree_files_outcome :
  (∀ files,
     rmtree_files remove_readonly files = ([], Ok ())
     ↔ Forall (λ f, rf_access f ≠ Denied) files)
  ∧ (∀ before f after,
       Forall (λ f, rf_access f ≠ Denied) before →
       rf_access f = Denied →
       rmtree_files remove_readonly (before ++ f :: after)
       = (f :: after, Raise PermissionError)).
Proof.
  assert (Hcut : ∀ before f after,
    Forall (λ f, rf_access f ≠ Denied) before →
    rf_access f = Denied →
    rmtree_files remove_readonly (before ++ f :: after)
    = (f :: after, Raise PermissionError)).
  { intros before f after Hbefore Hf.
    induction Hbefore as [|g before Hg _ IH]; simpl.
    - unfold unlink, remove_readonly. rewrite chmod_write_denied by done.
      by rewrite Hf.
    - unfold unlink, remove_readonly, chmod_write. simpl.
      destruct (rf_access g); by rewrite ?IH. }
  split; [|exact Hcut].
  intros files. split; [|apply rmtree_files_fallback].
  intros Hok. apply Forall_forall. intros f Hin Hf.
  apply list_elem_of_split in Hin as (l1 & l2 & ->).
  assert (∃ before g after,
    l1 ++ f :: l2 = before ++ g :: after
    ∧ Forall (λ f, rf_access f ≠ Denied) before ∧ rf_access g = Denied)
    as (before & g & after & Heq & Hbefore & Hg).
  { clear Hok. induction l1 as [|x l1 IH]; simpl.
    - by exists [], f, l2.
    - destruct (rf_access x) eqn:Hx;
        [| |by exists [], x, (l1 ++ f :: l2)];
        destruct IH as (before & g & after & -> & Hbefore & Hg);
        exists (x :: before), g, after; (split; [done|]);
        (split; [|done]); (constructor; [|done]); by rewrite Hx. }
  rewrite Heq, Hcut in Hok by done. discriminate.
Qed.

Lemma rmtree_files_outcome_witness :
  rmtree_files remove_readonly
    ([repo_xml]
       ++ {| rf_dir := ".git"; rf_name := "index.lock"; rf_access := Denied;
             rf_xml := None; rf_yaml := None |}
       :: [repo_yml None])
  = ({| rf_dir := ".git"; rf_name := "index.lock"; rf_access := Denied;
        rf_xml := None; rf_yaml := None |} :: [repo_yml None],
     Raise PermissionError).
Proof.
  apply (proj2 rmtree_files_outcome).
  - repeat constructor. discriminate.
  - reflexivity.
Defined.

(** ** What a run prints *)





(** ** File names and the choice of the parser *)

Lemma string_app_cons (c : Ascii.ascii) (s1 s2 : string) :
  String c s1 +:+ s2 = String c (s1 +:+ s2).
Proof. reflexivity. Qed.

Lemma string_length_app (s1 s2 : string) :
  String.length (s1 +:+ s2) = String.length s1 + String.length s2.
Proof.
  induction s1 as [|c s1 IH]; [done|].
  rewrite string_app_cons. simpl. by rewrite IH.
Qed.

Lemma string_app_assoc (s1 s2 s3 : string) :
  (s1 +:+ s2) +:+ s3 = s1 +:+ (s2 +:+ s3).
Proof.
  induction s1 as [|c s1 IH]; [done|].
  by rewrite !string_app_cons, IH.
Qed.

Lemma substring_all (s : string) : String.substring 0 (String.length s) s = s.
Proof. induction s as [|c s IH]; simpl; [done|]. by f_equal. Qed.

Lemma substring_app (pre suf : string) :
  String.substring (String.length pre) (String.length suf) (pre +:+ suf) = suf.
Proof.
  induction pre as [|c pre IH]; [apply substring_all|].
  by rewrite string_app_cons.
Qed.

Lemma substring_split (s : string) (k : nat) :
  k ≤ String.length s →
  s = String.substring 0 k s
        +:+ String.substring k (String.length s - k) s.
Proof.
  revert k. induction s as [|c s IH]; intros k Hk; simpl in *.
  - by destruct k.
  - destruct k as [|k]; simpl.
    + by rewrite substring_all.
    + rewrite string_app_cons. f_equal. apply IH. lia.
Qed.

Lemma endswith_app (pre suf : string) : endswith (pre +:+ suf) suf = true.
Proof.
  unfold endswith. rewrite string_length_app.
  rewrite decide_True by lia. apply bool_decide_eq_true.
  replace (String.length pre + String.length suf - String.length suf)
    with (String.length pre) by lia.
  apply substring_app.
Qed.

Lemma endswith_inv (s suf : string) :
  endswith s suf = true → ∃ pre, s = pre +:+ suf.
Proof.
  unfold endswith. remember (String.length suf) as m eqn:Hm.
  case_decide as Hlen; [|done].
  intros Hsub%bool_decide_eq_true.
  exists (String.substring 0 (String.length s - m) s).
  rewrite <- Hsub.
  etransitivity; [apply (substring_split s (String.length s - m)); lia|].
  do 2 f_equal. lia.
Qed.

Lemma string_app_suffix_inj (q r s1 s2 : string) :
  q +:+ s1 = r +:+ s2 → String.length s1 = String.length s2 → s1 = s2.
Proof.
  revert r. induction q as [|c q IH]; intros [|c' r];
    rewrite ?string_app_cons; intros Heq Hlen.
  - done.
  - apply (f_equal String.length) in Heq.
    change (String.length s1 = S (String.length (r +:+ s2))) in Heq.
    rewrite string_length_app in Heq. lia.
  - apply (f_equal String.length) in Heq.
    change (S (String.length (q +:+ s1)) = String.length s2) in Heq.
    rewrite string_length_app in Heq. lia.
  - injection Heq as _ Heq. by apply (IH r).
Qed.

Lemma endswith_xml (path name : string) :
  endswith name ".xml" = true → endswith (path +:+ "/" +:+ name) "xml" = true.
Proof.
  intros [pre ->]%endswith_inv.
  change ".xml" with ("." +:+ "xml").
  rewrite <- !string_app_assoc. apply endswith_app.
Qed.

Lemma endswith_yml (path name : string) :
  endswith name ".yml" = true → endswith (path +:+ "/" +:+ name) "xml" = false.
Proof.
  intros [pre ->]%endswith_inv.
  destruct (endswith _ "xml") eqn:Hxml; [|done].
  apply endswith_inv in Hxml as [q Hq].
  change ".yml" with ("." +:+ "yml") in Hq.
  rewrite <- !string_app_assoc in Hq.
  by apply string_app_suffix_inj in Hq.
Qed.

(** X16. The parser follows the pattern that found the file: every document
    that the pattern *.xml finds is parsed as XML (and the loader raises when
    it does not parse), and every document that the pattern *.yml finds is
    loaded as YAML, whatever the path of the directory. *)
Theorem discovered_documents_parser (path dir : string)
    (files : list repo_file) (db : factory) (file : source_file) :
  (file ∈ glob path dir ".xml" files →
   get_gfactory_data db file
   = match xml_tree file with
     | Some root => Ok (load_xml db root)
     | None => Raise XMLParseError
     end)
  ∧ (file ∈ glob path dir ".yml" files →
     get_gfactory_data db file = load_yaml db (yaml_data file)).
Proof.
  unfold glob, get_gfactory_data. split.
  - intros (f & -> & Hf)%list_elem_of_fmap.
    apply list_elem_of_filter in Hf as [(_ & Hsuffix & _) _]. simpl.
    by rewrite endswith_xml.
  - intros (f & -> & Hf)%list_elem_of_fmap.
    apply list_elem_of_filter in Hf as [(_ & Hsuffix & _) _]. simpl.
    by rewrite endswith_yml.
Qed.

Lemma discovered_documents_parser_witness :
  get_gfactory_data ∅
    {| filename := "/tmp/t/OSG_autoconf" +:+ "/" +:+ "10-hosted-ces.auto.yml";
       xml_tree := None; yaml_data := Some (YMap []) |}
  = load_yaml ∅ (Some (YMap [])).
Proof.
  apply (proj2 (discovered_documents_parser "/tmp/t/OSG_autoconf"
                  "OSG_autoconf" [repo_yml (Some (YMap []))] ∅
                  {| filename := "/tmp/t/OSG_autoconf" +:+ "/"
                                   +:+ "10-hosted-ces.auto.yml";
                     xml_tree := None; yaml_data := Some (YMap []) |})).
  vm_compute. by left.
Defined.

(** ** The result object of the reconciler *)

(** X17. On a store that holds a FactoryIndex and a RegistryIndex behind the
    two arguments, each function over objects returns, and what it returns
    is a reference that was not in the store before (never one of the input
    lists), to a list with the result of the function over values. *)
Theorem reconciler_returns_new_list (o : set_order)
    (gfactory_DB topology_DB : Heap.loc) (h : Heap.heap)
    (f : factory) (t : topology) :
  Heap.holds_factory h gfactory_DB f →
  Heap.holds_topology h topology_DB t →
  (∃ ret h' out,
     Heap.find_non_resource_matches o gfactory_DB topology_DB h = (Ok ret, h')
     ∧ h !! ret = None
     ∧ find_non_resource_matches o f t = Ok out
     ∧ h' !! ret = Some (Heap.OList (Heap.pair_value <$> out)))
  ∧ (∃ ret h' out,
       Heap.find_non_topology_matches o gfactory_DB topology_DB h
       = (Ok ret, h')
       ∧ h !! ret = None
       ∧ find_non_topology_matches o f t = Ok out
       ∧ h' !! ret = Some (Heap.OList (Heap.VScalar <$> out))).
Proof.
  intros Hf Ht. split.
  - destruct (heap_find_non_resource_matches_refines o _ _ _ _ _ Hf Ht)
      as (ret & h' & Hrun & Hfresh & out & Hout & Hret).
    by exists ret, h', out.
  - destruct (heap_find_non_topology_matches_refines o _ _ _ _ _ Hf Ht)
      as (ret & h' & Hrun & Hfresh & out & Hout & Hret).
    by exists ret, h', out.
Qed.

Lemma reconciler_returns_new_list_witness :
  ∃ ret h' out,
    Heap.find_non_resource_matches canonical_order 1%positive 3%positive
      heap_ex = (Ok ret, h')
    ∧ heap_ex !! ret = None
    ∧ find_non_resource_matches canonical_order factory_ex ex_topology
      = Ok out
    ∧ h' !! ret = Some (Heap.OList (Heap.pair_value <$> out)).
Proof.
  exact (proj1 (reconciler_returns_new_list canonical_order
                  1%positive 3%positive heap_ex factory_ex ex_topology
                  holds_factory_ex holds_topology_ex)).
Defined.




(** ** Further properties of the reconciler and the loaders *)

(** X19. Against an empty registry nothing is a mismatch and every key is an
    orphan: the mismatch list is empty and the orphan list is the
    concatenation of all the entry lists of the index. *)
Theorem empty_registry_all_orphans (o : set_order) (f : factory) :
  find_non_resource_matches o f empty_topology = Ok []
  ∧ find_non_topology_matches o f empty_topology
    = Ok (iter o (dom f) ≫= λ name, f !!! name).
Proof.
  rewrite find_non_resource_matches_eq, find_non_topology_matches_eq.
  assert (H1 : match_non_resource_names f empty_topology = ∅).
  { apply set_eq. intros n.
    rewrite elem_of_match_non_resource_names. simpl.
    rewrite !elem_of_empty. tauto. }
  assert (H2 : nonmatch_all_names f empty_topology = dom f).
  { apply set_eq. intros n.
    rewrite elem_of_nonmatch_all_names. simpl.
    rewrite !elem_of_empty. tauto. }
  by rewrite H1, H2, iter_empty.
Qed.

(** X20. Whether a loader returns or raises, and with which exception, does
    not depend on the index it is given; when it returns, the index holds
    under every key its old list followed by the list the document gives
    when it is loaded on its own. *)
Theorem loader_independent_of_index (db : factory) (file : source_file) :
  match get_gfactory_data ∅ file with
  | Ok alone =>
      ∃ db', get_gfactory_data db file = Ok db'
             ∧ dom db' = dom db ∪ dom alone
             ∧ ∀ k, db' !!! k = db !!! k ++ alone !!! k
  | Raise x => get_gfactory_data db file = Raise x
  end.
Proof.
  rewrite (get_gfactory_data_alone db file).
  destruct (get_gfactory_data ∅ file) as [alone|x]; [|done].
  exists (merge db alone). split; [done|].
  split; [apply dom_merge|apply lookup_total_merge].
Qed.
